(** * ossfs [src/types.h]: the bookkeeping types of chunked transfers

    A shallow embedding of the value types declared in [types.h] and of
    their inline member functions:

    - [acl_t]          the object access-control enumeration and its
                       conversion to and from strings;
    - [untreatedpart]  a byte range still to be transferred, with overlap
                       detection and interval merging;
    - [etagpair], [etaglist_t], [filepart]
                       the parts of a multipart upload and the list of
                       their ETags, into which every part keeps a pointer.

    Machine integers are integers of [Z] together with the wrap-around of
    their width: [off_t] and [long] are 64 bits wide, [int] is 32 bits
    wide.  C strings are [string]s read up to their first NUL character.
    Pointers to [etagpair] objects are addresses into an explicit store. *)

From Stdlib Require Import ZArith String Ascii List Lia.
From stdpp Require Import gmap list.

Local Open Scope Z_scope.

(* ===================================================================== *)
(** ** Machine integers *)
(* ===================================================================== *)

Module Machine.

(** The value a two's-complement register of [bits] bits holds after
    the mathematical result [z] was stored into it.  The source adds and
    subtracts signed integers with no test of the result's range; a
    result out of range is given the value the processor computes. *)
Definition wrap_signed (bits : Z) (z : Z) : Z :=
  (z + 2 ^ (bits - 1)) mod 2 ^ bits - 2 ^ (bits - 1).

(** [off_t]: file offsets, 64 bits (the program is built with
    [_FILE_OFFSET_BITS=64], as FUSE requires). *)
Definition off_bits : Z := 64.
Definition OFF_MAX : Z := 2 ^ 63 - 1.
Definition OFF_MIN : Z := - 2 ^ 63.
Definition in_off_t (z : Z) : Prop := OFF_MIN <= z <= OFF_MAX.

Definition off_add (a b : Z) : Z := wrap_signed off_bits (a + b).
Definition off_sub (a b : Z) : Z := wrap_signed off_bits (a - b).

(** [int]: 32 bits. *)
Definition int_bits : Z := 32.
Definition INT_MAX : Z := 2 ^ 31 - 1.
Definition INT_MIN : Z := - 2 ^ 31.
Definition in_int (z : Z) : Prop := INT_MIN <= z <= INT_MAX.

Definition int_add (a b : Z) : Z := wrap_signed int_bits (a + b).

(** [static_cast<int>(n)] of a [size_t] value [n]. *)
Definition int_of_size_t (n : nat) : Z := wrap_signed int_bits (Z.of_nat n).

(** Closed comparisons and equations, by evaluation. *)
Ltac by_evaluation :=
  vm_compute; first [ reflexivity | discriminate | intro; discriminate ].

End Machine.

(* ===================================================================== *)
(** ** untreatedpart *)
(* ===================================================================== *)

Module Untreated.
Import Machine.

(** [struct untreatedpart]. *)
Record untreatedpart : Type := mk_untreatedpart {
  start : Z;            (* untreated start position *)
  size : Z;             (* number of untreated bytes *)
  untreated_tag : Z     (* untreated part tag *)
}.

(** [void clear()] *)
Definition clear (self : untreatedpart) : untreatedpart :=
  {| start := 0; size := 0; untreated_tag := 0 |}.

(** [untreatedpart(off_t part_start = 0, off_t part_size = 0,
                   long part_untreated_tag = 0)] *)
Definition untreatedpart_new (part_start part_size part_untreated_tag : Z)
  : untreatedpart :=
  let self := {| start := part_start; size := part_size;
                 untreated_tag := part_untreated_tag |} in
  if (part_start <? 0) || (part_size <=? 0)
  then clear self        (* wrong parameter, so clear value. *)
  else self.

(** [bool check_overlap(off_t chk_start, off_t chk_size)] *)
Definition check_overlap (self : untreatedpart) (chk_start chk_size : Z) : bool :=
  if (chk_start <? 0) || (chk_size <=? 0)
     || (off_add chk_start chk_size <? start self)
     || (off_add (start self) (size self) <? chk_start)
  then false
  else true.

(** [bool stretch(off_t add_start, off_t add_size, long tag)]: the
    returned flag and the object after the call. *)
Definition stretch (self : untreatedpart) (add_start add_size tag : Z)
  : bool * untreatedpart :=
  if negb (check_overlap self add_start add_size) then (false, self)
  else
    let new_start := Z.min (start self) add_start in
    let new_next_start :=
      Z.max (off_add (start self) (size self)) (off_add add_start add_size) in
    (true, {| start := new_start;
              size := off_sub new_next_start new_start;
              untreated_tag := tag |}).

(** The range a constructor call leaves behind: a proper range, or the
    zero range. *)
Definition range_inv (u : untreatedpart) : Prop :=
  (0 <= start u /\ 0 < size u) \/ (start u = 0 /\ size u = 0).

(** The end offset [start + size] is itself an [off_t]. *)
Definition end_fits (a n : Z) : Prop := a + n <= OFF_MAX.

(** Two byte intervals [[a, a+n)] and [[b, b+m)] ... *)
(** ... have a byte in common, *)
Definition shares_byte (a n b m : Z) : Prop :=
  exists x, (a <= x < a + n) /\ (b <= x < b + m).
(** ... or one ends where the other begins. *)
Definition adjacent (a n b m : Z) : Prop := a + n = b \/ b + m = a.

Definition overlap_or_touch (a n b m : Z) : Prop :=
  shares_byte a n b m \/ adjacent a n b m.

Ltac unfold_off := unfold end_fits, in_off_t, OFF_MAX, OFF_MIN in *.

End Untreated.


(* ===================================================================== *)
(** ** acl_t *)
(* ===================================================================== *)

Module Acl.

(** [enum Value]; the enumerators are numbered from zero. *)
Inductive Value : Type :=
  PRIVATE | PUBLIC_READ | PUBLIC_READ_WRITE | DEFAULT | UNKNOWN.

Definition Value_rep (v : Value) : Z :=
  match v with
  | PRIVATE => 0
  | PUBLIC_READ => 1
  | PUBLIC_READ_WRITE => 2
  | DEFAULT => 3
  | UNKNOWN => 4
  end.

(** [class acl_t]: its one data member holds the enumeration object,
    that is, an integer that need not be one of the enumerators. *)
Record acl_t : Type := mk_acl_t { value_ : Z }.

(** [acl_t(Value value)] *)
Definition acl_t_new (value : Value) : acl_t := {| value_ := Value_rep value |}.

(** How a call ends: it returns a value, or it reaches [abort()]. *)
Inductive outcome (A : Type) : Type :=
| Returns (a : A)
| Aborts.
Arguments Returns {A} a.
Arguments Aborts {A}.

(** [const char* str() const]; [None] is the NULL pointer. *)
Definition str (self : acl_t) : outcome (option string) :=
  if value_ self =? Value_rep PRIVATE then Returns (Some "private"%string)
  else if value_ self =? Value_rep PUBLIC_READ then Returns (Some "public-read"%string)
  else if value_ self =? Value_rep PUBLIC_READ_WRITE then Returns (Some "public-read-write"%string)
  else if value_ self =? Value_rep DEFAULT then Returns (Some "default"%string)
  else if value_ self =? Value_rep UNKNOWN then Returns None
  else Aborts.

(** A character as [unsigned char]. *)
Definition uchar (c : ascii) : Z := Z.of_N (N_of_ascii c).

(** [strcmp]: the two arguments are compared character by character,
    as unsigned characters, up to and including the first NUL; the end
    of a [string] is its terminating NUL. *)
Fixpoint strcmp (s1 s2 : string) : Z :=
  match s1, s2 with
  | EmptyString, EmptyString => 0
  | EmptyString, String c2 _ => 0 - uchar c2
  | String c1 _, EmptyString => uchar c1 - 0
  | String c1 r1, String c2 r2 =>
      if Ascii.eqb c1 c2
      then (if Ascii.eqb c1 Ascii.zero then 0 else strcmp r1 r2)
      else uchar c1 - uchar c2
  end.

(** The C string a character array holds: what precedes its first NUL. *)
Fixpoint c_str (s : string) : string :=
  match s with
  | EmptyString => EmptyString
  | String c r => if Ascii.eqb c Ascii.zero then EmptyString else String c (c_str r)
  end.

(** [static acl_t from_str(const char *acl)] *)
Definition from_str (acl : string) : acl_t :=
  if 0 =? strcmp acl "private" then acl_t_new PRIVATE
  else if 0 =? strcmp acl "public-read" then acl_t_new PUBLIC_READ
  else if 0 =? strcmp acl "public-read-write" then acl_t_new PUBLIC_READ_WRITE
  else if 0 =? strcmp acl "default" then acl_t_new DEFAULT
  else acl_t_new UNKNOWN.

(** The string each access level is written as; [UNKNOWN] has none. *)
Definition name_of (v : Value) : option string :=
  match v with
  | PRIVATE => Some "private"%string
  | PUBLIC_READ => Some "public-read"%string
  | PUBLIC_READ_WRITE => Some "public-read-write"%string
  | DEFAULT => Some "default"%string
  | UNKNOWN => None
  end.

(** The strings the four access levels are written as. *)
Definition canonical : list string :=
  ["private"; "public-read"; "public-read-write"; "default"]%string.

End Acl.

(* ===================================================================== *)
(** ** etagpair, etaglist_t, filepart *)
(* ===================================================================== *)

(** Addresses of [etagpair] objects. *)
Abbreviation addr := positive (only parsing).

Module EtagPair.

(** [struct etagpair] *)
Record etagpair : Type := mk_etagpair {
  etag : string;        (* expected etag value *)
  part_num : Z          (* part number *)
}.

(** [etagpair(const char* petag = NULL, int part = -1)] *)
Definition etagpair_new (petag : option string) (part : Z) : etagpair :=
  {| etag := match petag with Some s => s | None => EmptyString end;
     part_num := part |}.

(** [void clear()] *)
Definition clear (self : etagpair) : etagpair :=
  {| etag := EmptyString; part_num := -1 |}.

End EtagPair.

(** [typedef std::list<etagpair> etaglist_t]: a linked list.  Every
    element lives in a node of its own; the list is the sequence of the
    addresses of its elements, front to back, and the elements themselves
    are in the store. *)
Abbreviation etaglist_t := (list addr) (only parsing).

Module FilePart.
Import Machine.
Import EtagPair.

(** [struct filepart] *)
Record filepart : Type := mk_filepart {
  uploaded : bool;              (* does finish uploading *)
  etag : string;                (* expected etag value *)
  fd : Z;                       (* base file(temporary full file) descriptor *)
  startpos : Z;                 (* seek fd point for uploading *)
  size : Z;                     (* uploading size *)
  is_copy : bool;               (* whether is copy multipart *)
  petag : option addr;          (* use only parallel upload *)
  streambuffer : option addr;   (* use only direct read *)
  streampos : Z                 (* use only direct read *)
}.

(** [filepart(bool is_uploaded = false, int _fd = -1, off_t part_start = 0,
             off_t part_size = -1, bool is_copy_part = false,
             etagpair* petagpair = NULL)] *)
Definition filepart_new (is_uploaded : bool) (_fd : Z) (part_start part_size : Z)
    (is_copy_part : bool) (petagpair : option addr) : filepart :=
  {| uploaded := false; etag := EmptyString; fd := _fd; startpos := part_start;
     size := part_size; is_copy := is_copy_part; petag := petagpair;
     streambuffer := None; streampos := 0 |}.

(** [void clear()] *)
Definition clear (self : filepart) : filepart :=
  {| uploaded := false; etag := EmptyString; fd := -1; startpos := 0;
     size := -1; is_copy := false; petag := None;
     streambuffer := None; streampos := 0 |}.

(** [void set_etag(etagpair* petagobj)] *)
Definition set_etag (self : filepart) (petagobj : option addr) : filepart :=
  {| uploaded := uploaded self; etag := etag self; fd := fd self;
     startpos := startpos self; size := size self; is_copy := is_copy self;
     petag := petagobj;
     streambuffer := streambuffer self; streampos := streampos self |}.

(** [void add_etag_list(etaglist_t& list, int partnum = -1)].
    [push_back] puts the new element into a node allocated for it, at
    an address not in use; [&list.back()] is that address. *)
Definition add_etag_list (self : filepart) (mem : gmap addr etagpair)
    (list : etaglist_t) (partnum : Z)
  : gmap addr etagpair * etaglist_t * filepart :=
  let partnum :=
    if -1 =? partnum then int_add (int_of_size_t (length list)) 1 else partnum in
  let back := fresh (dom mem) in
  (<[back := etagpair_new None partnum]> mem,
   list ++ [back],
   set_etag self (Some back)).

(** [int get_part_number()]; reading through a pointer to no object has
    no result. *)
Definition get_part_number (self : filepart) (mem : gmap addr etagpair) : option Z :=
  match petag self with
  | None => Some (-1)
  | Some p => part_num <$> mem !! p
  end.

(** A run of [add_etag_list] calls on one list, each by a part of its
    own with its own [partnum] argument; the parts are returned as the
    calls left them, in call order. *)
Fixpoint add_etag_list_seq (calls : list (filepart * Z))
    (mem : gmap addr etagpair) (l : etaglist_t)
  : gmap addr etagpair * etaglist_t * list filepart :=
  match calls with
  | [] => (mem, l, [])
  | (part, partnum) :: rest =>
      let '(mem1, l1, part1) := add_etag_list part mem l partnum in
      let '(mem2, l2, parts) := add_etag_list_seq rest mem1 l1 in
      (mem2, l2, part1 :: parts)
  end.

(** The part numbers held in a list, front to back. *)
Definition part_numbers (mem : gmap addr etagpair) (l : etaglist_t) : list (option Z) :=
  (fun p => part_num <$> mem !! p) <$> l.

(** Every element of the list is an object of the store. *)
Definition list_in_store (mem : gmap addr etagpair) (l : etaglist_t) : Prop :=
  Forall (fun q => is_Some (mem !! q)) l.

(** The part numbers a run of calls stores, when the list holds [n]
    elements before the first of them. *)
Fixpoint numbers_given (calls : list (filepart * Z)) (n : nat) : list (option Z) :=
  match calls with
  | [] => []
  | (_, partnum) :: rest =>
      Some (if -1 =? partnum then int_add (int_of_size_t n) 1 else partnum)
      :: numbers_given rest (S n)
  end.

(** A part built with the constructor's default arguments. *)
Definition default_part : filepart := filepart_new false (-1) 0 (-1) false None.

(** The store and the list after [INT_MAX] calls
    [default_part.add_etag_list(list)] that began on an empty list. *)
Definition full_run : gmap addr etagpair * etaglist_t * list filepart :=
  add_etag_list_seq (replicate (Z.to_nat INT_MAX) (default_part, -1)) ∅ [].

End FilePart.

(* ===================================================================== *)
(** ** mimes_t: the key order *)
(* ===================================================================== *)

Module Mimes.
Import Acl.

(** [tolower], as the C locale defines it: the letters [A] to [Z] are
    moved to [a] to [z], every other character stays. *)
Definition tolower (c : ascii) : ascii :=
  let n := N_of_ascii c in
  if ((65 <=? n) && (n <=? 90))%N then ascii_of_N (n + 32) else c.

(** [strcasecmp]: as [strcmp], on the characters after [tolower]. *)
Fixpoint strcasecmp (s1 s2 : string) : Z :=
  match s1, s2 with
  | EmptyString, EmptyString => 0
  | EmptyString, String c2 _ => 0 - uchar (tolower c2)
  | String c1 _, EmptyString => uchar (tolower c1) - 0
  | String c1 r1, String c2 r2 =>
      if Ascii.eqb (tolower c1) (tolower c2)
      then (if Ascii.eqb c1 Ascii.zero then 0 else strcasecmp r1 r2)
      else uchar (tolower c1) - uchar (tolower c2)
  end.

(** [struct case_insensitive_compare_func]:
    [bool operator()(const std::string& a, const std::string& b) const].
    A [std::string] is its characters, which may include NUL; [c_str()]
    is those characters followed by a NUL. *)
Definition case_insensitive_compare_func (a b : string) : bool :=
  strcasecmp a b <? 0.

(** What the order looks at in a key: the codes of the characters before
    the first NUL, after [tolower]. *)
Fixpoint folded (s : string) : list Z :=
  match s with
  | EmptyString => []
  | String c r =>
      if Ascii.eqb c Ascii.zero then [] else uchar (tolower c) :: folded r
  end.

(** The strict lexicographic order on lists of codes. *)
Fixpoint lex_lt (k1 k2 : list Z) : bool :=
  match k1, k2 with
  | _, [] => false
  | [], _ :: _ => true
  | x :: r1, y :: r2 => (x <? y) || ((x =? y) && lex_lt r1 r2)
  end.

(** A string with [tolower] applied to each of its characters. *)
Fixpoint lower_string (s : string) : string :=
  match s with
  | EmptyString => EmptyString
  | String c r => String (tolower c) (lower_string r)
  end.

(** Two keys the order does not tell apart. *)
Definition same_key (a b : string) : Prop :=
  case_insensitive_compare_func a b = false
  /\ case_insensitive_compare_func b a = false.

End Mimes.

(* ===================================================================== *)
(** * Properties *)
(* ===================================================================== *)

(** ** Machine arithmetic *)

Module MachineFacts.
Import Machine.

Lemma wrap_signed_small bits z :
  0 < bits -> - 2 ^ (bits - 1) <= z < 2 ^ (bits - 1) -> wrap_signed bits z = z.
Proof.
  intros Hb Hz. unfold wrap_signed.
  assert (E : 2 ^ bits = 2 * 2 ^ (bits - 1)).
  { replace bits with (Z.succ (bits - 1)) at 1 by lia.
    rewrite Z.pow_succ_r by lia. reflexivity. }
  rewrite Z.mod_small by lia. lia.
Qed.

Lemma wrap_signed_range bits z :
  0 < bits -> - 2 ^ (bits - 1) <= wrap_signed bits z < 2 ^ (bits - 1).
Proof.
  intros Hb. unfold wrap_signed.
  assert (E : 2 ^ bits = 2 * 2 ^ (bits - 1)).
  { replace bits with (Z.succ (bits - 1)) at 1 by lia.
    rewrite Z.pow_succ_r by lia. reflexivity. }
  assert (P : 0 < 2 ^ (bits - 1)) by (apply Z.pow_pos_nonneg; lia).
  pose proof (Z.mod_pos_bound (z + 2 ^ (bits - 1)) (2 ^ bits)) as B.
  lia.
Qed.

Lemma off_add_exact a b : in_off_t (a + b) -> off_add a b = a + b.
Proof.
  unfold in_off_t, OFF_MIN, OFF_MAX, off_add, off_bits. intros H.
  apply wrap_signed_small; [lia|]. change (64 - 1) with 63. lia.
Qed.

Lemma off_sub_exact a b : in_off_t (a - b) -> off_sub a b = a - b.
Proof.
  unfold in_off_t, OFF_MIN, OFF_MAX, off_sub, off_bits. intros H.
  apply wrap_signed_small; [lia|]. change (64 - 1) with 63. lia.
Qed.

(** A sum of two non-negative offsets that leaves the range comes back
    negative. *)
Lemma off_add_overflow a b :
  0 <= a <= OFF_MAX -> 0 <= b <= OFF_MAX -> OFF_MAX < a + b ->
  off_add a b = a + b - 2 ^ 64 /\ off_add a b < 0.
Proof.
  unfold OFF_MAX, off_add, off_bits, wrap_signed. intros Ha Hb Hab.
  change (64 - 1) with 63.
  assert (E : (a + b + 2 ^ 63) mod 2 ^ 64 = a + b + 2 ^ 63 - 2 ^ 64).
  { symmetry. apply Z.mod_unique with (q := 1); lia. }
  rewrite E. lia.
Qed.

Lemma int_add_exact a b : in_int (a + b) -> int_add a b = a + b.
Proof.
  unfold in_int, INT_MIN, INT_MAX, int_add, int_bits. intros H.
  apply wrap_signed_small; [lia|]. change (32 - 1) with 31. lia.
Qed.

Lemma int_of_size_t_exact n : Z.of_nat n <= INT_MAX -> int_of_size_t n = Z.of_nat n.
Proof.
  unfold INT_MAX, int_of_size_t, int_bits. intros H.
  apply wrap_signed_small; [lia|]. change (32 - 1) with 31. lia.
Qed.

End MachineFacts.

(** ** untreatedpart: overlap detection and merging *)

Module UntreatedSpec.
Import Machine MachineFacts Untreated.

(** For two non-empty intervals, sharing a byte or being adjacent is a
    comparison of their ends. *)
Lemma overlap_or_touch_iff a n b m :
  0 < n -> 0 < m ->
  overlap_or_touch a n b m <-> (b <= a + n /\ a <= b + m).
Proof.
  intros Hn Hm. unfold overlap_or_touch, shares_byte, adjacent. split.
  - intros [[x [Hx1 Hx2]] | [E | E]]; lia.
  - intros [H1 H2].
    destruct (Z.eq_dec (a + n) b) as [E1 | N1]; [right; left; exact E1 |].
    destruct (Z.eq_dec (b + m) a) as [E2 | N2]; [right; right; exact E2 |].
    left. exists (Z.max a b). lia.
Qed.

(** The zero range touches exactly the intervals that begin at the
    origin. *)
Lemma overlap_or_touch_zero b m :
  0 <= b -> 0 < m -> overlap_or_touch 0 0 b m <-> b = 0.
Proof.
  intros Hb Hm. unfold overlap_or_touch, shares_byte, adjacent. split.
  - intros [[x [Hx1 Hx2]] | [E | E]]; lia.
  - intros ->. right. left. reflexivity.
Qed.

(** Once the arguments pass the validity test, [check_overlap] is the
    comparison of the ends, in [off_t] arithmetic. *)
Lemma check_overlap_expr u chk_start chk_size :
  0 <= chk_start -> 0 < chk_size ->
  check_overlap u chk_start chk_size
  = negb ((off_add chk_start chk_size <? start u)
          || (off_add (start u) (size u) <? chk_start)).
Proof.
  intros Hs Hn. unfold check_overlap.
  replace (chk_start <? 0) with false by (symmetry; apply Z.ltb_ge; lia).
  replace (chk_size <=? 0) with false by (symmetry; apply Z.leb_gt; lia).
  cbn [orb]. destruct (_ || _); reflexivity.
Qed.

(** With both ends in range, the comparison is the mathematical one. *)
Lemma check_overlap_exact u chk_start chk_size :
  0 <= chk_start -> 0 < chk_size ->
  in_off_t (start u + size u) -> in_off_t (chk_start + chk_size) ->
  check_overlap u chk_start chk_size = true
  <-> (start u <= chk_start + chk_size /\ chk_start <= start u + size u).
Proof.
  intros Hs Hn Hu Hc. rewrite check_overlap_expr by assumption.
  rewrite !off_add_exact by assumption.
  rewrite negb_true_iff, orb_false_iff, !Z.ltb_ge. reflexivity.
Qed.

(** An invalid argument is refused before anything else is looked at. *)
Lemma check_overlap_invalid u chk_start chk_size :
  chk_start < 0 \/ chk_size <= 0 -> check_overlap u chk_start chk_size = false.
Proof.
  intros H. unfold check_overlap.
  destruct H as [H | H].
  - apply Z.ltb_lt in H. rewrite H. reflexivity.
  - apply Z.leb_le in H. rewrite H, orb_true_r. reflexivity.
Qed.

(** [stretch] is [check_overlap] followed by the update. *)
Lemma stretch_refused u add_start add_size tag :
  check_overlap u add_start add_size = false ->
  stretch u add_start add_size tag = (false, u).
Proof. intros H. unfold stretch. rewrite H. reflexivity. Qed.

Lemma stretch_accepted u add_start add_size tag :
  check_overlap u add_start add_size = true ->
  stretch u add_start add_size tag
  = (true, {| start := Z.min (start u) add_start;
              size := off_sub (Z.max (off_add (start u) (size u))
                                     (off_add add_start add_size))
                              (Z.min (start u) add_start);
              untreated_tag := tag |}).
Proof. intros H. unfold stretch. rewrite H. reflexivity. Qed.

(** *** Merging *)

(** C1, as amended.  Take a proper range ([start >= 0], [size > 0]) and
    a valid argument ([add_start >= 0], [add_size > 0]) whose intervals
    share a byte or are adjacent, and let both end offsets
    [start + size] and [add_start + add_size] be representable in
    [off_t].  Then [stretch] returns true and leaves exactly the union
    interval: the new start is the smaller start, the new end is the
    larger end, a byte lies in the new range if and only if it lies in
    one of the two, and the tag is the tag passed in. *)
Theorem stretch_union u add_start add_size tag :
  0 <= start u -> 0 < size u ->
  0 <= add_start -> 0 < add_size ->
  overlap_or_touch (start u) (size u) add_start add_size ->
  end_fits (start u) (size u) -> end_fits add_start add_size ->
  exists u',
    stretch u add_start add_size tag = (true, u')
    /\ start u' = Z.min (start u) add_start
    /\ start u' + size u' = Z.max (start u + size u) (add_start + add_size)
    /\ untreated_tag u' = tag
    /\ (forall x, start u' <= x < start u' + size u'
                  <-> (start u <= x < start u + size u
                       \/ add_start <= x < add_start + add_size)).
Proof.
  intros Hs Hn Has Han Hov Hfu Hfa.
  apply overlap_or_touch_iff in Hov; [| assumption | assumption].
  destruct Hov as [Ho1 Ho2]. unfold_off.
  assert (Hchk : check_overlap u add_start add_size = true).
  { apply check_overlap_exact; unfold_off; try lia. }
  eexists. split; [apply stretch_accepted; exact Hchk |].
  cbn [start size untreated_tag].
  rewrite !off_add_exact by (unfold_off; lia).
  rewrite off_sub_exact by (unfold_off; lia).
  repeat split; try lia.
Qed.

Lemma stretch_union_witness :
  exists u',
    stretch (untreatedpart_new 0 10 1) 4 20 2 = (true, u')
    /\ start u' = 0 /\ start u' + size u' = 24 /\ untreated_tag u' = 2
    /\ (forall x, start u' <= x < start u' + size u'
                  <-> (0 <= x < 0 + 10 \/ 4 <= x < 4 + 20)).
Proof.
  apply (stretch_union (untreatedpart_new 0 10 1) 4 20 2).
  - simpl. lia.
  - simpl. lia.
  - lia.
  - lia.
  - left. exists 4. simpl. lia.
  - unfold end_fits, OFF_MAX. simpl. lia.
  - unfold end_fits, OFF_MAX. lia.
Defined.

(** C1 as stated fails where an end offset does not fit in [off_t]: the
    range [[0, 10)] and the argument [[5, 5 + OFF_MAX)] satisfy every
    condition of the claim and share byte 5, but the sum
    [5 + OFF_MAX] wraps to a negative number, [stretch] returns false
    and the range stays as it was. *)
Lemma stretch_union_overflow :
  let u := untreatedpart_new 0 10 0 in
  0 <= start u /\ 0 < size u /\ 0 <= 5 /\ 0 < OFF_MAX
  /\ overlap_or_touch (start u) (size u) 5 OFF_MAX
  /\ stretch u 5 OFF_MAX 7 = (false, u).
Proof.
  cbv zeta.
  split; [by_evaluation |]. split; [by_evaluation |].
  split; [by_evaluation |]. split; [by_evaluation |].
  split; [| by_evaluation].
  left. exists 5. split; split; by_evaluation.
Qed.

(** *** Overlap detection *)

(** C2, as amended.  For every [untreatedpart] and every valid argument
    ([chk_start >= 0], [chk_size > 0]), [check_overlap] returns the
    value of
    [!((chk_start+chk_size) < start || (start+size) < chk_start)]
    computed in [off_t] arithmetic.  When the receiver is a range as
    the constructor leaves it and both end offsets are representable in
    [off_t], that value is true if and only if the two intervals share
    a byte or are adjacent.  The range [[0,10)] and the argument
    [(10, 5)] are mergeable, and stretching yields exactly [[0,15)]. *)
Theorem check_overlap_spec u chk_start chk_size :
  0 <= chk_start -> 0 < chk_size ->
  check_overlap u chk_start chk_size
  = negb ((off_add chk_start chk_size <? start u)
          || (off_add (start u) (size u) <? chk_start))
  /\ (range_inv u ->
      end_fits (start u) (size u) -> end_fits chk_start chk_size ->
      (check_overlap u chk_start chk_size = true
       <-> overlap_or_touch (start u) (size u) chk_start chk_size))
  /\ (forall t t',
        check_overlap (untreatedpart_new 0 10 t) 10 5 = true
        /\ stretch (untreatedpart_new 0 10 t) 10 5 t'
           = (true, mk_untreatedpart 0 15 t')).
Proof.
  intros Hs Hn. split; [apply check_overlap_expr; assumption |]. split.
  - intros Hinv Hfu Hfc. unfold_off.
    destruct Hinv as [[H0 H1] | [E0 E1]].
    + rewrite overlap_or_touch_iff by assumption.
      rewrite check_overlap_exact by (unfold_off; lia). lia.
    + rewrite E0, E1, overlap_or_touch_zero by assumption.
      rewrite check_overlap_exact by (unfold_off; lia). lia.
  - intros t t'. split; vm_compute; reflexivity.
Qed.

Lemma check_overlap_spec_witness :
  check_overlap (untreatedpart_new 0 10 1) 10 5
  = negb ((off_add 10 5 <? 0) || (off_add 0 10 <? 10))
  /\ (check_overlap (untreatedpart_new 0 10 1) 10 5 = true
      <-> overlap_or_touch 0 10 10 5)
  /\ stretch (untreatedpart_new 0 10 1) 10 5 2 = (true, mk_untreatedpart 0 15 2).
Proof.
  destruct (check_overlap_spec (untreatedpart_new 0 10 1) 10 5) as [E [I X]];
    [lia | lia |].
  split; [exact E |]. split.
  - apply I.
    + left. simpl. lia.
    + unfold end_fits, OFF_MAX. simpl. lia.
    + unfold end_fits, OFF_MAX. lia.
  - apply (X 1 2).
Defined.

(** C2 as stated fails where an end offset does not fit in [off_t]: the
    range built by [untreatedpart(OFF_MAX - 9, 10)] holds the last ten
    offsets, the argument [(OFF_MAX - 4, 2)] lies inside it, and
    [check_overlap] returns false, because [start + size] wraps. *)
Lemma check_overlap_overflow :
  let u := untreatedpart_new (OFF_MAX - 9) 10 0 in
  0 <= OFF_MAX - 4 /\ 0 < 2
  /\ shares_byte (start u) (size u) (OFF_MAX - 4) 2
  /\ check_overlap u (OFF_MAX - 4) 2 = false.
Proof.
  cbv zeta.
  split; [by_evaluation |]. split; [by_evaluation |].
  split; [| by_evaluation].
  exists (OFF_MAX - 4). split; split; by_evaluation.
Qed.

(** *** Invalid arguments *)

(** C3.  For every [untreatedpart] and every invalid argument
    ([add_start < 0] or [add_size <= 0]), [check_overlap] returns false
    and [stretch] returns false and leaves [start], [size] and
    [untreated_tag] as they were. *)
Theorem invalid_input_noop u add_start add_size tag :
  add_start < 0 \/ add_size <= 0 ->
  check_overlap u add_start add_size = false
  /\ fst (stretch u add_start add_size tag) = false
  /\ start (snd (stretch u add_start add_size tag)) = start u
  /\ size (snd (stretch u add_start add_size tag)) = size u
  /\ untreated_tag (snd (stretch u add_start add_size tag)) = untreated_tag u.
Proof.
  intros H. apply check_overlap_invalid with (u := u) in H.
  rewrite (stretch_refused _ _ _ _ H). repeat split. exact H.
Qed.

Lemma invalid_input_noop_witness :
  (check_overlap (mk_untreatedpart 3 4 5) (-1) 8 = false
   /\ fst (stretch (mk_untreatedpart 3 4 5) (-1) 8 9) = false
   /\ start (snd (stretch (mk_untreatedpart 3 4 5) (-1) 8 9)) = 3
   /\ size (snd (stretch (mk_untreatedpart 3 4 5) (-1) 8 9)) = 4
   /\ untreated_tag (snd (stretch (mk_untreatedpart 3 4 5) (-1) 8 9)) = 5)
  /\ (check_overlap (mk_untreatedpart 3 4 5) 2 0 = false
      /\ fst (stretch (mk_untreatedpart 3 4 5) 2 0 9) = false
      /\ start (snd (stretch (mk_untreatedpart 3 4 5) 2 0 9)) = 3
      /\ size (snd (stretch (mk_untreatedpart 3 4 5) 2 0 9)) = 4
      /\ untreated_tag (snd (stretch (mk_untreatedpart 3 4 5) 2 0 9)) = 5).
Proof.
  split.
  - apply (invalid_input_noop (mk_untreatedpart 3 4 5) (-1) 8 9). left. lia.
  - apply (invalid_input_noop (mk_untreatedpart 3 4 5) 2 0 9). right. lia.
Defined.

(** *** Construction *)

(** C4.  For every pair of constructor arguments the constructed range
    satisfies the invariant: it is a proper range ([start >= 0] and
    [size > 0]) or the zero range.  If [part_start < 0] or
    [part_size <= 0] it is [start = 0], [size = 0],
    [untreated_tag = 0]; otherwise it holds exactly the given start,
    size and tag. *)
Theorem constructor_normalizes part_start part_size part_untreated_tag :
  let u := untreatedpart_new part_start part_size part_untreated_tag in
  range_inv u
  /\ (part_start < 0 \/ part_size <= 0 -> u = mk_untreatedpart 0 0 0)
  /\ (0 <= part_start /\ 0 < part_size ->
      u = mk_untreatedpart part_start part_size part_untreated_tag).
Proof.
  cbv zeta. unfold untreatedpart_new, range_inv, clear.
  destruct (Z.ltb_spec part_start 0) as [Hs | Hs];
    destruct (Z.leb_spec part_size 0) as [Hn | Hn]; cbn [orb start size];
    (split; [| split; intros H]); try reflexivity; lia.
Qed.

Lemma constructor_normalizes_witness :
  (untreatedpart_new (-3) 8 5 = mk_untreatedpart 0 0 0
   /\ untreatedpart_new 3 0 5 = mk_untreatedpart 0 0 0)
  /\ untreatedpart_new 3 8 5 = mk_untreatedpart 3 8 5
  /\ range_inv (untreatedpart_new 3 8 5).
Proof.
  split; [split |]; [| | split].
  - apply (constructor_normalizes (-3) 8 5). left. lia.
  - apply (constructor_normalizes 3 0 5). right. lia.
  - apply (constructor_normalizes 3 8 5). lia.
  - apply (constructor_normalizes 3 8 5).
Defined.

(** *** The zero range *)

(** C10.  On a cleared range ([start = 0], [size = 0]), for every
    [n > 0], [check_overlap(0, n)] returns true: the empty interval is
    adjacent to [[0, n)] at position 0.  [stretch(0, n, tag)] therefore
    succeeds and turns the zero range into [[0, n)] with that tag. *)
Theorem zero_range_overlaps_origin u n tag :
  0 < n <= OFF_MAX ->
  start (clear u) = 0 /\ size (clear u) = 0
  /\ adjacent (start (clear u)) (size (clear u)) 0 n
  /\ check_overlap (clear u) 0 n = true
  /\ stretch (clear u) 0 n tag = (true, mk_untreatedpart 0 n tag).
Proof.
  intros Hn.
  assert (Hchk : check_overlap (clear u) 0 n = true).
  { apply check_overlap_exact; cbn [clear start size]; unfold_off; lia. }
  split; [reflexivity |]. split; [reflexivity |].
  split; [left; reflexivity |]. split; [exact Hchk |].
  rewrite (stretch_accepted _ _ _ _ Hchk). cbn [clear start size].
  rewrite !off_add_exact by (unfold_off; lia).
  rewrite off_sub_exact by (unfold_off; lia).
  do 2 f_equal. lia.
Qed.

Lemma zero_range_overlaps_origin_witness :
  start (clear (untreatedpart_new 2 3 4)) = 0
  /\ size (clear (untreatedpart_new 2 3 4)) = 0
  /\ adjacent (start (clear (untreatedpart_new 2 3 4)))
              (size (clear (untreatedpart_new 2 3 4))) 0 100
  /\ check_overlap (clear (untreatedpart_new 2 3 4)) 0 100 = true
  /\ stretch (clear (untreatedpart_new 2 3 4)) 0 100 6
     = (true, mk_untreatedpart 0 100 6).
Proof.
  apply (zero_range_overlaps_origin (untreatedpart_new 2 3 4) 100 6).
  unfold OFF_MAX. lia.
Defined.

(** *** The invariant *)

(** [stretch] keeps the invariant of the constructor.  On a range as the
    constructor leaves it, with [off_t] values as fields and arguments,
    the range after the call is again a proper range or the zero range;
    when the call succeeds the range is proper and its end offset is
    representable.  An argument whose end overflows is refused, so a
    successful call never computes a wrapped sum. *)
Theorem stretch_keeps_invariant u add_start add_size tag :
  range_inv u ->
  start u <= OFF_MAX -> size u <= OFF_MAX ->
  add_start <= OFF_MAX -> add_size <= OFF_MAX ->
  range_inv (stretch u add_start add_size tag).2
  /\ ((stretch u add_start add_size tag).1 = true ->
      0 <= start (stretch u add_start add_size tag).2
      /\ 0 < size (stretch u add_start add_size tag).2
      /\ end_fits (start u) (size u)
      /\ end_fits add_start add_size
      /\ end_fits (start (stretch u add_start add_size tag).2)
                  (size (stretch u add_start add_size tag).2)).
Proof.
  intros Hinv Hs Hn Ha Hm.
  destruct (check_overlap u add_start add_size) eqn:Hchk.
  2: { rewrite (stretch_refused _ _ _ _ Hchk). cbn [fst snd].
       split; [exact Hinv | discriminate]. }
  rewrite (stretch_accepted _ _ _ _ Hchk). cbn [fst snd start size].
  assert (Hv : 0 <= add_start /\ 0 < add_size).
  { destruct (Z_lt_ge_dec add_start 0) as [L | G].
    - rewrite check_overlap_invalid in Hchk by (left; exact L). discriminate Hchk.
    - destruct (Z_le_gt_dec add_size 0) as [L' | G'].
      + rewrite check_overlap_invalid in Hchk by (right; exact L').
        discriminate Hchk.
      + lia. }
  destruct Hv as [Hv1 Hv2].
  rewrite check_overlap_expr in Hchk by assumption.
  apply negb_true_iff, orb_false_iff in Hchk. destruct Hchk as [C1 C2].
  apply Z.ltb_ge in C1, C2.
  assert (H0 : 0 <= start u /\ 0 <= size u) by (unfold range_inv in Hinv; lia).
  assert (Fa : add_start + add_size <= OFF_MAX).
  { destruct (Z_le_gt_dec (add_start + add_size) OFF_MAX) as [L | G]; [exact L |].
    destruct (off_add_overflow add_start add_size) as [_ Neg]; lia. }
  assert (Fu : start u + size u <= OFF_MAX).
  { destruct (Z_le_gt_dec (start u + size u) OFF_MAX) as [L | G]; [exact L |].
    destruct (off_add_overflow (start u) (size u)) as [_ Neg]; lia. }
  rewrite !off_add_exact in * by (unfold_off; lia).
  rewrite off_sub_exact by (unfold_off; lia).
  unfold range_inv, end_fits. cbn [start size].
  split; [left; lia |]. intros _. lia.
Qed.

Lemma stretch_keeps_invariant_witness :
  range_inv (stretch (untreatedpart_new 0 10 1) 10 5 2).2
  /\ ((stretch (untreatedpart_new 0 10 1) 10 5 2).1 = true ->
      0 <= start (stretch (untreatedpart_new 0 10 1) 10 5 2).2
      /\ 0 < size (stretch (untreatedpart_new 0 10 1) 10 5 2).2
      /\ end_fits (start (untreatedpart_new 0 10 1)) (size (untreatedpart_new 0 10 1))
      /\ end_fits 10 5
      /\ end_fits (start (stretch (untreatedpart_new 0 10 1) 10 5 2).2)
                  (size (stretch (untreatedpart_new 0 10 1) 10 5 2).2)).
Proof.
  apply (stretch_keeps_invariant (untreatedpart_new 0 10 1) 10 5 2).
  - left. simpl. lia.
  - by_evaluation.
  - by_evaluation.
  - by_evaluation.
  - by_evaluation.
Defined.

End UntreatedSpec.

(** ** acl_t: conversion to and from strings *)

Module AclSpec.
Import Acl.

Lemma uchar_inj c1 c2 : uchar c1 = uchar c2 -> c1 = c2.
Proof.
  unfold uchar. intros H. apply N2Z.inj in H.
  rewrite <- (ascii_N_embedding c1), <- (ascii_N_embedding c2), H. reflexivity.
Qed.

Lemma uchar_zero c : uchar c = 0 <-> c = Ascii.zero.
Proof.
  split.
  - intros H. apply uchar_inj. rewrite H. reflexivity.
  - intros ->. reflexivity.
Qed.

(** [strcmp] returns zero exactly on arrays that hold the same C
    string. *)
Lemma strcmp_zero_iff s1 : forall s2, strcmp s1 s2 = 0 <-> c_str s1 = c_str s2.
Proof.
  induction s1 as [| c1 r1 IH]; intros [| c2 r2]; cbn [strcmp c_str].
  - split; reflexivity.
  - destruct (Ascii.eqb_spec c2 Ascii.zero) as [E | N].
    + subst c2. split; reflexivity.
    + split; intros H; [exfalso; apply N, uchar_zero; lia | discriminate H].
  - destruct (Ascii.eqb_spec c1 Ascii.zero) as [E | N].
    + subst c1. split; reflexivity.
    + split; intros H; [exfalso; apply N, uchar_zero; lia | discriminate H].
  - destruct (Ascii.eqb_spec c1 c2) as [E | N].
    + subst c2. destruct (Ascii.eqb_spec c1 Ascii.zero) as [E0 | N0].
      * split; reflexivity.
      * rewrite IH. split; [intros -> | intros H; injection H]; auto.
    + assert (U : uchar c1 - uchar c2 <> 0).
      { intros H. apply N. apply uchar_inj. lia. }
      destruct (Ascii.eqb_spec c1 Ascii.zero) as [E1 | N1];
        destruct (Ascii.eqb_spec c2 Ascii.zero) as [E2 | N2];
        split; intros H; try congruence; try contradiction.
Qed.

Lemma strcmp_test acl name :
  (0 =? strcmp acl name) = true <-> c_str acl = c_str name.
Proof. rewrite Z.eqb_eq, <- strcmp_zero_iff. split; intros H; congruence. Qed.

Lemma strcmp_test_false acl name :
  c_str acl <> c_str name -> (0 =? strcmp acl name) = false.
Proof.
  intros H. destruct (0 =? strcmp acl name) eqn:E; [| reflexivity].
  apply strcmp_test in E. contradiction.
Qed.

(** C7.  [str] is total over the enumeration: for each of the five
    values it returns and does not reach [abort()]; it returns the
    lowercase name for the four levels, and the null pointer exactly
    for [UNKNOWN]. *)
Theorem str_total (v : Value) :
  exists p : option string,
    str (acl_t_new v) = Returns p
    /\ p = name_of v
    /\ (p = None <-> v = UNKNOWN).
Proof.
  exists (name_of v). split; [| split; [reflexivity |]].
  - destruct v; reflexivity.
  - destruct v; cbn [name_of]; split; intros H; congruence.
Qed.

(** The [abort()] after the [switch] is what an object holding no
    enumerator runs into. *)
Example str_not_an_enumerator : str (mk_acl_t 5) = Aborts.
Proof. reflexivity. Qed.

(** C6.  On each of the four names, [str (from_str s)] gives back [s].
    For an argument [acl] in general: if the C string it holds is one
    of the four names, [str (from_str acl)] is that name; if it is any
    other string, [from_str acl] is [UNKNOWN].  The comparison is exact:
    a name in upper case, a proper prefix of a name and a name followed
    by a blank are all [UNKNOWN]. *)
Theorem from_str_round_trip :
  (forall s, In s canonical -> str (from_str s) = Returns (Some s))
  /\ (forall acl, In (c_str acl) canonical ->
                  str (from_str acl) = Returns (Some (c_str acl)))
  /\ (forall acl, ~ In (c_str acl) canonical -> from_str acl = acl_t_new UNKNOWN)
  /\ from_str "PUBLIC-READ" = acl_t_new UNKNOWN
  /\ from_str "public" = acl_t_new UNKNOWN
  /\ from_str "private " = acl_t_new UNKNOWN.
Proof.
  split; [| split; [| split]].
  - intros s Hs. cbn [canonical In] in Hs.
    destruct Hs as [<- | [<- | [<- | [<- | []]]]]; reflexivity.
  - intros acl Hin. cbn [canonical In] in Hin. unfold from_str.
    destruct (0 =? strcmp acl "private") eqn:E1.
    { apply strcmp_test in E1. rewrite E1. reflexivity. }
    destruct (0 =? strcmp acl "public-read") eqn:E2.
    { apply strcmp_test in E2. rewrite E2. reflexivity. }
    destruct (0 =? strcmp acl "public-read-write") eqn:E3.
    { apply strcmp_test in E3. rewrite E3. reflexivity. }
    destruct (0 =? strcmp acl "default") eqn:E4.
    { apply strcmp_test in E4. rewrite E4. reflexivity. }
    exfalso.
    destruct Hin as [H | [H | [H | [H | []]]]]; symmetry in H;
      [ change (c_str acl = c_str "private") in H; apply strcmp_test in H
      | change (c_str acl = c_str "public-read") in H; apply strcmp_test in H
      | change (c_str acl = c_str "public-read-write") in H; apply strcmp_test in H
      | change (c_str acl = c_str "default") in H; apply strcmp_test in H ];
      congruence.
  - intros acl Hnot. cbn [canonical In] in Hnot. unfold from_str.
    rewrite !strcmp_test_false; [reflexivity | | | |];
      intros H; apply Hnot; cbn [c_str Ascii.eqb Bool.eqb] in H; auto.
  - repeat split; reflexivity.
Qed.

Lemma from_str_round_trip_witness :
  str (from_str "public-read-write") = Returns (Some "public-read-write"%string)
  /\ str (from_str "default") = Returns (Some (c_str "default"))
  /\ from_str "Private" = acl_t_new UNKNOWN.
Proof.
  destruct from_str_round_trip as [R [C [U _]]].
  split; [| split].
  - apply R. right. right. left. reflexivity.
  - apply C. right. right. right. left. reflexivity.
  - apply U. cbn. intros [H | [H | [H | [H | H]]]];
      first [discriminate H | exact H].
Defined.

End AclSpec.

(** ** filepart and the ETag list *)

Module PartSpec.
Import Machine MachineFacts EtagPair FilePart.

Lemma fresh_unused (mem : gmap addr etagpair) : mem !! fresh (dom mem) = None.
Proof. apply not_elem_of_dom. apply is_fresh. Qed.

(** [add_etag_list], one component at a time. *)
Lemma add_etag_list_eq self (mem : gmap addr etagpair) (l : etaglist_t) partnum :
  add_etag_list self mem l partnum
  = (<[fresh (dom mem) :=
         etagpair_new None
           (if -1 =? partnum then int_add (int_of_size_t (length l)) 1 else partnum)]> mem,
     l ++ [fresh (dom mem)],
     set_etag self (Some (fresh (dom mem)))).
Proof. reflexivity. Qed.

(** An insertion leaves every object of the store where and as it was. *)
Lemma add_etag_list_keeps self (mem : gmap addr etagpair) (l : etaglist_t) partnum q e :
  mem !! q = Some e -> (add_etag_list self mem l partnum).1.1 !! q = Some e.
Proof.
  intros H. rewrite add_etag_list_eq. cbn [fst].
  rewrite lookup_insert_ne; [exact H |].
  intros E. rewrite <- E, fresh_unused in H. discriminate H.
Qed.

Lemma add_etag_list_seq_keeps calls :
  forall (mem : gmap addr etagpair) (l : etaglist_t) q e,
    mem !! q = Some e -> (add_etag_list_seq calls mem l).1.1 !! q = Some e.
Proof.
  induction calls as [| [part partnum] rest IH]; intros mem l q e H.
  - exact H.
  - cbn [add_etag_list_seq].
    pose proof (add_etag_list_keeps part mem l partnum q e H) as H1.
    destruct (add_etag_list part mem l partnum) as [[mem1 l1] part1].
    pose proof (IH mem1 l1 q e H1) as H2.
    destruct (add_etag_list_seq rest mem1 l1) as [[mem2 l2] parts].
    exact H2.
Qed.

(** A run of insertions appends one address for each call, and each
    part's pointer is the address appended for it. *)
Lemma add_etag_list_seq_appends calls :
  forall (mem : gmap addr etagpair) (l : etaglist_t),
    exists ext,
      (add_etag_list_seq calls mem l).1.2 = l ++ ext
      /\ petag <$> (add_etag_list_seq calls mem l).2 = Some <$> ext.
Proof.
  induction calls as [| [part partnum] rest IH]; intros mem l.
  - exists []. cbn. rewrite app_nil_r. split; reflexivity.
  - cbn [add_etag_list_seq]. rewrite add_etag_list_eq.
    match goal with |- context [add_etag_list_seq rest ?m ?k] =>
      destruct (IH m k) as [ext [E1 E2]];
      destruct (add_etag_list_seq rest m k) as [[mem2 l2] parts] end.
    cbn [fst snd] in *. exists (fresh (dom mem) :: ext). split.
    + rewrite E1, <- app_assoc. reflexivity.
    + rewrite !fmap_cons, E2. reflexivity.
Qed.

Lemma add_etag_list_seq_length calls :
  forall (mem : gmap addr etagpair) (l : etaglist_t),
    length (add_etag_list_seq calls mem l).1.2 = (length l + length calls)%nat.
Proof.
  induction calls as [| [part partnum] rest IH]; intros mem l.
  - cbn. lia.
  - cbn [add_etag_list_seq]. rewrite add_etag_list_eq.
    match goal with |- context [add_etag_list_seq rest ?m ?k] =>
      pose proof (IH m k) as E;
      destruct (add_etag_list_seq rest m k) as [[mem2 l2] parts] end.
    cbn [fst snd length] in *. rewrite E, length_app. cbn [length]. lia.
Qed.

Lemma part_numbers_app (mem : gmap addr etagpair) (l k : etaglist_t) :
  part_numbers mem (l ++ k) = part_numbers mem l ++ part_numbers mem k.
Proof. unfold part_numbers. apply fmap_app. Qed.

Lemma part_numbers_keeps (mem mem' : gmap addr etagpair) (l : etaglist_t) :
  list_in_store mem l ->
  (forall q e, mem !! q = Some e -> mem' !! q = Some e) ->
  part_numbers mem' l = part_numbers mem l.
Proof.
  unfold part_numbers, list_in_store. intros Hin Hk.
  induction Hin as [| q l [e Hq] _ IH]; [reflexivity |].
  rewrite !fmap_cons, IH, Hq, (Hk q e Hq). reflexivity.
Qed.

(** The numbers a run of insertions stores are those of [numbers_given],
    after the numbers the list held before. *)
Lemma add_etag_list_seq_numbers calls :
  forall (mem : gmap addr etagpair) (l : etaglist_t),
    list_in_store mem l ->
    part_numbers (add_etag_list_seq calls mem l).1.1 (add_etag_list_seq calls mem l).1.2
    = part_numbers mem l ++ numbers_given calls (length l).
Proof.
  induction calls as [| [part partnum] rest IH]; intros mem l Hin.
  - cbn. rewrite app_nil_r. reflexivity.
  - cbn [add_etag_list_seq numbers_given]. rewrite add_etag_list_eq.
    set (back := fresh (dom mem)).
    set (e := etagpair_new None _).
    assert (Hin1 : list_in_store (<[back := e]> mem) (l ++ [back])).
    { apply Forall_app. split.
      - eapply Forall_impl; [exact Hin |]. intros q [x Hq]. exists x.
        rewrite lookup_insert_ne; [exact Hq |].
        intros E. subst q. unfold back in Hq. rewrite fresh_unused in Hq.
        discriminate Hq.
      - constructor; [| constructor]. exists e. apply lookup_insert_eq. }
    specialize (IH _ _ Hin1).
    destruct (add_etag_list_seq rest (<[back := e]> mem) (l ++ [back]))
      as [[mem2 l2] parts].
    cbn [fst snd] in *. rewrite IH, part_numbers_app.
    rewrite (part_numbers_keeps mem (<[back := e]> mem) l Hin).
    + rewrite <- app_assoc. f_equal. unfold part_numbers at 1.
      cbn [fmap list_fmap]. rewrite lookup_insert_eq.
      rewrite length_app, Nat.add_1_r. reflexivity.
    + intros q x Hq. rewrite lookup_insert_ne; [exact Hq |].
      intros E. subst q. unfold back in Hq. rewrite fresh_unused in Hq.
      discriminate Hq.
Qed.

(** *** Construction *)

(** C9.  The constructor does not use its first argument: whatever
    [is_uploaded] is, also [true], the constructed part has
    [uploaded = false], and it is the part the same call with
    [is_uploaded = false] constructs.  The other arguments are stored as
    given. *)
Theorem filepart_new_never_uploaded
    (is_uploaded : bool) (_fd part_start part_size : Z)
    (is_copy_part : bool) (petagpair : option addr) :
  let part := filepart_new is_uploaded _fd part_start part_size is_copy_part petagpair in
  uploaded part = false
  /\ part = filepart_new false _fd part_start part_size is_copy_part petagpair
  /\ fd part = _fd /\ startpos part = part_start /\ size part = part_size
  /\ is_copy part = is_copy_part /\ petag part = petagpair.
Proof. cbv zeta. repeat (split; [reflexivity |]). reflexivity. Qed.

(** *** Part numbers *)

(** C5, as amended.  When the list holds fewer than [INT_MAX] elements, a
    call of [add_etag_list] with the part number left out ([-1]) appends
    one [etagpair] with an empty etag whose part number is the size the
    list had before the call, plus one, and the part's pointer refers to
    it.  A part number other than [-1] is stored as given.  Three calls
    with the part number left out, starting from the empty list, leave
    the numbers 1, 2, 3 in the list, in call order, and these are the
    numbers the three parts report. *)
Theorem default_part_number self (mem : gmap addr etagpair) (l : etaglist_t) :
  (Z.of_nat (length l) < INT_MAX ->
   let r := add_etag_list self mem l (-1) in
   exists back,
     r.1.2 = l ++ [back]
     /\ petag r.2 = Some back
     /\ r.1.1 !! back = Some (mk_etagpair EmptyString (Z.of_nat (length l) + 1))
     /\ get_part_number r.2 r.1.1 = Some (Z.of_nat (length l) + 1))
  /\ (forall partnum, partnum <> -1 ->
      let r := add_etag_list self mem l partnum in
      exists back,
        r.1.2 = l ++ [back]
        /\ petag r.2 = Some back
        /\ r.1.1 !! back = Some (mk_etagpair EmptyString partnum)
        /\ get_part_number r.2 r.1.1 = Some partnum)
  /\ (forall a b c,
      let r := add_etag_list_seq [(a, -1); (b, -1); (c, -1)] mem [] in
      part_numbers r.1.1 r.1.2 = [Some 1; Some 2; Some 3]
      /\ (fun part => get_part_number part r.1.1) <$> r.2 = [Some 1; Some 2; Some 3]).
Proof.
  split; [| split].
  - intros Hlen. cbv zeta. rewrite add_etag_list_eq. cbn [fst snd].
    exists (fresh (dom mem)).
    assert (E : int_add (int_of_size_t (length l)) 1 = Z.of_nat (length l) + 1).
    { rewrite int_of_size_t_exact by lia. apply int_add_exact.
      unfold in_int, INT_MIN, INT_MAX in *. lia. }
    change (-1 =? -1) with true. cbn iota. rewrite E.
    split; [reflexivity |]. split; [reflexivity |].
    unfold get_part_number. cbn [petag set_etag].
    rewrite lookup_insert_eq. split; reflexivity.
  - intros partnum Hne. cbv zeta. rewrite add_etag_list_eq. cbn [fst snd].
    exists (fresh (dom mem)).
    replace (-1 =? partnum) with false by (symmetry; apply Z.eqb_neq; lia).
    split; [reflexivity |]. split; [reflexivity |].
    unfold get_part_number. cbn [petag set_etag].
    rewrite lookup_insert_eq. split; reflexivity.
  - intros a b c. cbv zeta.
    pose proof (add_etag_list_seq_numbers [(a, -1); (b, -1); (c, -1)] mem [])
      as Hnum.
    pose proof (add_etag_list_seq_appends [(a, -1); (b, -1); (c, -1)] mem [])
      as [ext [Hext Hptr]].
    destruct (add_etag_list_seq [(a, -1); (b, -1); (c, -1)] mem [])
      as [[mem3 l3] parts].
    cbn [fst snd] in *. rewrite app_nil_l in Hext. subst l3.
    specialize (Hnum (List.Forall_nil _)).
    assert (N : part_numbers mem3 ext = [Some 1; Some 2; Some 3]).
    { rewrite Hnum. vm_compute. reflexivity. }
    split; [exact N |]. rewrite <- N. unfold part_numbers.
    clear Hnum N. revert ext Hptr.
    induction parts as [| part parts IH]; intros [| q ext] Hptr;
      try discriminate Hptr; [reflexivity |].
    rewrite !fmap_cons in Hptr. injection Hptr as Hq Hrest.
    rewrite !fmap_cons, (IH _ Hrest). unfold get_part_number at 1.
    rewrite Hq. reflexivity.
Qed.

Lemma default_part_number_witness :
  (exists back,
     (add_etag_list (filepart_new false 3 0 100 false None) ∅ [] (-1)).1.2 = [] ++ [back]
     /\ petag (add_etag_list (filepart_new false 3 0 100 false None) ∅ [] (-1)).2
        = Some back
     /\ (add_etag_list (filepart_new false 3 0 100 false None) ∅ [] (-1)).1.1 !! back
        = Some (mk_etagpair EmptyString (Z.of_nat (length (@nil addr)) + 1))
     /\ get_part_number
          (add_etag_list (filepart_new false 3 0 100 false None) ∅ [] (-1)).2
          (add_etag_list (filepart_new false 3 0 100 false None) ∅ [] (-1)).1.1
        = Some (Z.of_nat (length (@nil addr)) + 1))
  /\ (exists back,
     (add_etag_list (filepart_new false 3 0 100 false None) ∅ [] 7).1.2 = [] ++ [back]
     /\ petag (add_etag_list (filepart_new false 3 0 100 false None) ∅ [] 7).2
        = Some back
     /\ (add_etag_list (filepart_new false 3 0 100 false None) ∅ [] 7).1.1 !! back
        = Some (mk_etagpair EmptyString 7)
     /\ get_part_number
          (add_etag_list (filepart_new false 3 0 100 false None) ∅ [] 7).2
          (add_etag_list (filepart_new false 3 0 100 false None) ∅ [] 7).1.1
        = Some 7).
Proof.
  destruct (default_part_number (filepart_new false 3 0 100 false None) ∅ [])
    as [D [X _]].
  split.
  - apply D. vm_compute. reflexivity.
  - apply (X 7). discriminate.
Defined.

(** C5 as stated fails on a list of [INT_MAX] elements.  After
    [INT_MAX] calls with the part number left out, begun on an empty
    list, the size plus one is 2147483648, which is no [int], and the
    next such call stores the part number -2147483648. *)
Lemma default_part_number_overflow :
  let mem := full_run.1.1 in
  let l := full_run.1.2 in
  let r := add_etag_list default_part mem l (-1) in
  Z.of_nat (length l) + 1 = 2147483648
  /\ get_part_number r.2 r.1.1 = Some (-2147483648).
Proof.
  cbv zeta. rewrite add_etag_list_eq. cbn [fst snd].
  assert (L : Z.of_nat (length full_run.1.2) = INT_MAX).
  { unfold full_run. rewrite add_etag_list_seq_length, length_replicate.
    cbn [length]. rewrite Nat.add_0_l. apply Z2Nat.id. by_evaluation. }
  split.
  - rewrite L. by_evaluation.
  - unfold get_part_number. cbn [petag set_etag].
    rewrite lookup_insert_eq. change (-1 =? -1) with true. cbn iota.
    unfold int_of_size_t. rewrite L. by_evaluation.
Qed.

(** *** Pointers into the list *)

(** C8.  The pointer a part obtains from [add_etag_list] stays valid
    through any run of later insertions into the same list: it refers to
    the same [etagpair], unchanged, the element is still the list's
    element at the position where it was appended, and the part still
    reads its part number through it. *)
Theorem handle_stays_valid self (mem : gmap addr etagpair) (l : etaglist_t)
    (partnum : Z) (calls : list (filepart * Z)) :
  let r1 := add_etag_list self mem l partnum in
  let r2 := add_etag_list_seq calls r1.1.1 r1.1.2 in
  exists back e,
    petag r1.2 = Some back
    /\ r1.1.1 !! back = Some e
    /\ r2.1.1 !! back = Some e
    /\ r1.1.2 !! length l = Some back
    /\ r2.1.2 !! length l = Some back
    /\ get_part_number r1.2 r2.1.1 = Some (part_num e)
    /\ get_part_number r1.2 r1.1.1 = Some (part_num e).
Proof.
  cbv zeta. rewrite add_etag_list_eq. cbn [fst snd].
  set (back := fresh (dom mem)). set (e := etagpair_new None _).
  exists back, e.
  assert (H1 : <[back := e]> mem !! back = Some e) by apply lookup_insert_eq.
  pose proof (add_etag_list_seq_keeps calls _ (l ++ [back]) _ _ H1) as H2.
  destruct (add_etag_list_seq_appends calls (<[back := e]> mem) (l ++ [back]))
    as [ext [Hext _]].
  assert (Hpos : (l ++ [back]) !! length l = Some back).
  { apply list_lookup_middle. reflexivity. }
  split; [reflexivity |]. split; [exact H1 |]. split; [exact H2 |].
  split; [exact Hpos |]. split.
  - rewrite Hext, lookup_app_l; [exact Hpos |].
    rewrite length_app. cbn [length]. lia.
  - unfold get_part_number. cbn [petag set_etag]. rewrite H1, H2.
    split; reflexivity.
Qed.

(** [get_part_number] on a part bound to no [etagpair] returns the
    sentinel -1: a part as the constructor builds it without a pointer,
    and every part after [clear()]. *)
Theorem get_part_number_unbound
    (is_uploaded : bool) (_fd part_start part_size : Z) (is_copy_part : bool)
    (part : filepart) (mem : gmap addr etagpair) :
  get_part_number
    (filepart_new is_uploaded _fd part_start part_size is_copy_part None) mem
  = Some (-1)
  /\ get_part_number (clear part) mem = Some (-1)
  /\ get_part_number (set_etag part None) mem = Some (-1).
Proof. repeat split. Qed.

End PartSpec.

(** ** mimes_t: the key order is a strict weak order *)

Module MimeSpec.
Import Acl AclSpec Mimes.

Lemma tolower_zero c : tolower c = Ascii.zero <-> c = Ascii.zero.
Proof.
  split; [| intros ->; reflexivity].
  destruct c as [[] [] [] [] [] [] [] []]; vm_compute; intros H;
    first [reflexivity | discriminate H].
Qed.

Lemma tolower_idempotent c : tolower (tolower c) = tolower c.
Proof. destruct c as [[] [] [] [] [] [] [] []]; vm_compute; reflexivity. Qed.

Lemma uchar_nonneg c : 0 <= uchar c.
Proof. unfold uchar. lia. Qed.

Lemma uchar_tolower_pos c : c <> Ascii.zero -> 0 < uchar (tolower c).
Proof.
  intros N. pose proof (uchar_nonneg (tolower c)) as P.
  destruct (Z.eq_dec (uchar (tolower c)) 0) as [E | E]; [| lia].
  apply (proj1 (uchar_zero _)) in E. apply (proj1 (tolower_zero _)) in E.
  destruct (N E).
Qed.

Lemma folded_pos s : Forall (fun x => 0 < x) (folded s).
Proof.
  induction s as [| c r IH]; cbn [folded]; [constructor |].
  destruct (Ascii.eqb_spec c Ascii.zero) as [E | N]; constructor;
    [apply uchar_tolower_pos; exact N | exact IH].
Qed.

Lemma lex_lt_nil_r k : lex_lt k [] = false.
Proof. destruct k; reflexivity. Qed.

(** The comparison object orders keys as [lex_lt] orders what [folded]
    keeps of them. *)
Lemma strcasecmp_neg s1 : forall s2,
  (strcasecmp s1 s2 <? 0) = lex_lt (folded s1) (folded s2).
Proof.
  induction s1 as [| c1 r1 IH]; intros [| c2 r2]; cbn [strcasecmp folded].
  - reflexivity.
  - destruct (Ascii.eqb_spec c2 Ascii.zero) as [E | N].
    + subst c2. reflexivity.
    + pose proof (uchar_tolower_pos c2 N). cbn [lex_lt]. apply Z.ltb_lt. lia.
  - rewrite lex_lt_nil_r. pose proof (uchar_nonneg (tolower c1)).
    apply Z.ltb_ge. lia.
  - destruct (Ascii.eqb_spec (tolower c1) (tolower c2)) as [E | N].
    + destruct (Ascii.eqb_spec c1 Ascii.zero) as [E1 | N1].
      * subst c1. symmetry in E. apply (proj1 (tolower_zero _)) in E. subst c2.
        reflexivity.
      * assert (N2 : c2 <> Ascii.zero).
        { intros ->. apply N1. apply (proj1 (tolower_zero _)). exact E. }
        apply Ascii.eqb_neq in N2. rewrite N2. cbn [lex_lt].
        rewrite E, Z.ltb_irrefl, Z.eqb_refl. cbn [orb andb]. apply IH.
    + assert (U : uchar (tolower c1) <> uchar (tolower c2)).
      { intros H. apply N, uchar_inj, H. }
      destruct (Ascii.eqb_spec c1 Ascii.zero) as [E1 | N1];
        destruct (Ascii.eqb_spec c2 Ascii.zero) as [E2 | N2].
      * subst c1 c2. exfalso. apply N. reflexivity.
      * subst c1. pose proof (uchar_tolower_pos c2 N2). cbn [lex_lt].
        apply Z.ltb_lt. change (uchar (tolower Ascii.zero)) with 0. lia.
      * subst c2. pose proof (uchar_tolower_pos c1 N1). cbn [lex_lt].
        apply Z.ltb_ge. change (uchar (tolower Ascii.zero)) with 0. lia.
      * cbn [lex_lt]. apply Z.eqb_neq in U. rewrite U. cbn [andb].
        rewrite orb_false_r.
        destruct (Z.ltb_spec (uchar (tolower c1)) (uchar (tolower c2)));
          [apply Z.ltb_lt | apply Z.ltb_ge]; lia.
Qed.

Lemma compare_folded a b :
  case_insensitive_compare_func a b = lex_lt (folded a) (folded b).
Proof. apply strcasecmp_neg. Qed.

Lemma lex_lt_irrefl k : lex_lt k k = false.
Proof.
  induction k as [| x r IH]; [reflexivity |]. cbn [lex_lt].
  rewrite Z.ltb_irrefl, Z.eqb_refl, IH. reflexivity.
Qed.

Lemma lex_lt_trans k1 : forall k2 k3,
  lex_lt k1 k2 = true -> lex_lt k2 k3 = true -> lex_lt k1 k3 = true.
Proof.
  induction k1 as [| x r1 IH]; intros [| y r2] [| z r3]; cbn [lex_lt];
    try discriminate; try reflexivity.
  intros H1 H2.
  apply orb_true_iff in H1. apply orb_true_iff in H2. apply orb_true_iff.
  destruct H1 as [H1 | H1]; destruct H2 as [H2 | H2];
    rewrite ?andb_true_iff, ?Z.ltb_lt, ?Z.eqb_eq in *.
  - left. lia.
  - left. lia.
  - left. lia.
  - right. split; [lia |]. apply (IH r2 r3); tauto.
Qed.

(** Of two different lists one is below the other. *)
Lemma lex_lt_total k1 : forall k2,
  lex_lt k1 k2 = false -> lex_lt k2 k1 = false -> k1 = k2.
Proof.
  induction k1 as [| x r1 IH]; intros [| y r2]; cbn [lex_lt];
    try discriminate; try reflexivity.
  intros H1 H2.
  apply orb_false_iff in H1. apply orb_false_iff in H2.
  destruct H1 as [L1 A1]. destruct H2 as [L2 A2].
  apply Z.ltb_ge in L1, L2. assert (E : x = y) by lia. subst y.
  rewrite Z.eqb_refl in A1, A2. cbn [andb] in A1, A2.
  f_equal. apply IH; assumption.
Qed.

Lemma same_key_folded a b : same_key a b <-> folded a = folded b.
Proof.
  unfold same_key. rewrite !compare_folded. split.
  - intros [H1 H2]. apply lex_lt_total; assumption.
  - intros ->. split; apply lex_lt_irrefl.
Qed.

Lemma folded_lower_string s : folded (lower_string s) = folded s.
Proof.
  induction s as [| c r IH]; [reflexivity |]. cbn [lower_string folded].
  destruct (Ascii.eqb_spec c Ascii.zero) as [E | N].
  - subst c. reflexivity.
  - assert (N' : tolower c <> Ascii.zero).
    { intros H. apply N. apply (proj1 (tolower_zero _)). exact H. }
    apply Ascii.eqb_neq in N'. rewrite N', tolower_idempotent, IH. reflexivity.
Qed.

Lemma folded_c_str s : folded (c_str s) = folded s.
Proof.
  induction s as [| c r IH]; [reflexivity |]. cbn [c_str folded].
  destruct (Ascii.eqb_spec c Ascii.zero) as [E | N]; [reflexivity |].
  cbn [folded]. apply Ascii.eqb_neq in N. rewrite N, IH. reflexivity.
Qed.

(** X3.  The comparison object of [mimes_t] is a strict weak order, as
    [std::map] requires of it: no key is below itself, of two keys at
    most one is below the other, "below" is transitive, and so is "not
    told apart". *)
Theorem compare_strict_weak_order (a b c : string) :
  case_insensitive_compare_func a a = false
  /\ (case_insensitive_compare_func a b = true ->
      case_insensitive_compare_func b a = false)
  /\ (case_insensitive_compare_func a b = true ->
      case_insensitive_compare_func b c = true ->
      case_insensitive_compare_func a c = true)
  /\ (same_key a b -> same_key b c -> same_key a c).
Proof.
  rewrite !same_key_folded, !compare_folded.
  split; [apply lex_lt_irrefl |]. split; [| split].
  - intros H. destruct (lex_lt (folded b) (folded a)) eqn:E; [| reflexivity].
    pose proof (lex_lt_trans _ _ _ H E) as T. rewrite lex_lt_irrefl in T.
    discriminate T.
  - apply lex_lt_trans.
  - intros -> ->. reflexivity.
Qed.

Lemma compare_strict_weak_order_witness :
  case_insensitive_compare_func "css" "HTML" = true
  /\ case_insensitive_compare_func "HTML" "css" = false
  /\ case_insensitive_compare_func "css" "txt" = true
  /\ same_key "Html" "html".
Proof.
  destruct (compare_strict_weak_order "css" "HTML" "txt") as [_ [A [T _]]].
  destruct (compare_strict_weak_order "Html" "HTML" "html") as [_ [_ [_ S]]].
  split; [reflexivity |]. split; [apply A; reflexivity |].
  split; [apply T; reflexivity |].
  apply S; split; reflexivity.
Defined.

(** X4.  Two keys are not told apart exactly when they agree, after
    [tolower], on the characters before their first NUL.  So a key and the
    same key with its letters in another case are one key of the map, and
    so are two keys that differ only behind a NUL. *)
Theorem same_key_iff (a b : string) :
  (same_key a b <-> folded a = folded b)
  /\ same_key a (lower_string a)
  /\ same_key a (c_str a)
  /\ (lower_string a = lower_string b -> same_key a b)
  /\ (c_str a = c_str b -> same_key a b).
Proof.
  split; [apply same_key_folded |]. rewrite !same_key_folded.
  split; [symmetry; apply folded_lower_string |].
  split; [symmetry; apply folded_c_str |]. split.
  - intros H. rewrite <- (folded_lower_string a), <- (folded_lower_string b), H.
    reflexivity.
  - intros H. rewrite <- (folded_c_str a), <- (folded_c_str b), H. reflexivity.
Qed.

Lemma same_key_iff_witness :
  same_key "Text/HTML" "text/html"
  /\ same_key (String "a" (String Ascii.zero "b")) (String "a" (String Ascii.zero "c")).
Proof.
  split.
  - destruct (same_key_iff "Text/HTML" "text/html") as [_ [_ [_ [L _]]]].
    apply L. reflexivity.
  - destruct (same_key_iff (String "a" (String Ascii.zero "b"))
                           (String "a" (String Ascii.zero "c")))
      as [_ [_ [_ [_ C]]]].
    apply C. reflexivity.
Defined.

End MimeSpec.

(** ** untreatedpart: how merges compose *)

Module UntreatedMore.
Import Machine MachineFacts Untreated UntreatedSpec.

(** What a successful test says about a range that satisfies the
    invariant: the argument is valid, neither end overflowed, and the
    intervals touch. *)
Lemma check_overlap_true_inv u a n :
  range_inv u ->
  start u <= OFF_MAX -> size u <= OFF_MAX -> a <= OFF_MAX -> n <= OFF_MAX ->
  check_overlap u a n = true ->
  0 <= a /\ 0 < n
  /\ start u + size u <= OFF_MAX /\ a + n <= OFF_MAX
  /\ start u <= a + n /\ a <= start u + size u.
Proof.
  intros Hinv Hs Hz Ha Hn Hchk.
  assert (Hv : 0 <= a /\ 0 < n).
  { destruct (Z_lt_ge_dec a 0) as [L | G].
    - rewrite check_overlap_invalid in Hchk by (left; exact L). discriminate Hchk.
    - destruct (Z_le_gt_dec n 0) as [L' | G'].
      + rewrite check_overlap_invalid in Hchk by (right; exact L').
        discriminate Hchk.
      + lia. }
  destruct Hv as [Hv1 Hv2].
  rewrite check_overlap_expr in Hchk by assumption.
  apply negb_true_iff, orb_false_iff in Hchk. destruct Hchk as [C1 C2].
  apply Z.ltb_ge in C1, C2.
  assert (H0 : 0 <= start u /\ 0 <= size u) by (unfold range_inv in Hinv; lia).
  assert (Fa : a + n <= OFF_MAX).
  { destruct (Z_le_gt_dec (a + n) OFF_MAX) as [L | G]; [exact L |].
    destruct (off_add_overflow a n) as [_ Neg]; lia. }
  assert (Fu : start u + size u <= OFF_MAX).
  { destruct (Z_le_gt_dec (start u + size u) OFF_MAX) as [L | G]; [exact L |].
    destruct (off_add_overflow (start u) (size u)) as [_ Neg]; lia. }
  rewrite !off_add_exact in * by (unfold_off; lia). lia.
Qed.

(** The range a merge leaves when the ends are in range. *)
Lemma stretch_exact u a n tag :
  0 <= start u -> 0 <= size u -> 0 <= a -> 0 < n ->
  start u + size u <= OFF_MAX -> a + n <= OFF_MAX ->
  start u <= a + n -> a <= start u + size u ->
  stretch u a n tag
  = (true, mk_untreatedpart (Z.min (start u) a)
             (Z.max (start u + size u) (a + n) - Z.min (start u) a) tag).
Proof.
  intros Hs Hz Ha Hn Fu Fa T1 T2.
  assert (Hchk : check_overlap u a n = true).
  { apply check_overlap_exact; unfold_off; lia. }
  rewrite (stretch_accepted _ _ _ _ Hchk).
  rewrite !off_add_exact by (unfold_off; lia).
  rewrite off_sub_exact by (unfold_off; lia). reflexivity.
Qed.

(** X5.  An argument that lies inside a proper range is absorbed: the
    call succeeds, start and size stay, and only the tag is replaced. *)
Theorem stretch_absorbs u add_start add_size tag :
  0 <= start u -> 0 < size u -> end_fits (start u) (size u) ->
  start u <= add_start -> 0 < add_size ->
  add_start + add_size <= start u + size u ->
  stretch u add_start add_size tag
  = (true, mk_untreatedpart (start u) (size u) tag).
Proof.
  intros Hs Hz Fu Ha Hn Hin. unfold end_fits in Fu.
  rewrite stretch_exact by lia. do 2 f_equal; lia.
Qed.

Lemma stretch_absorbs_witness :
  stretch (untreatedpart_new 10 20 1) 15 5 2 = (true, mk_untreatedpart 10 20 2).
Proof.
  apply (stretch_absorbs (untreatedpart_new 10 20 1) 15 5 2);
    first [ by_evaluation | unfold end_fits; by_evaluation ].
Defined.

(** X6.  A successful merge, made a second time with the same arguments,
    succeeds again and changes nothing: on a range that satisfies the
    invariant, with [off_t] values, [stretch] is idempotent. *)
Theorem stretch_idempotent u add_start add_size tag :
  range_inv u ->
  start u <= OFF_MAX -> size u <= OFF_MAX ->
  add_start <= OFF_MAX -> add_size <= OFF_MAX ->
  (stretch u add_start add_size tag).1 = true ->
  stretch (stretch u add_start add_size tag).2 add_start add_size tag
  = stretch u add_start add_size tag.
Proof.
  intros Hinv Hs Hz Ha Hn Hok.
  destruct (check_overlap u add_start add_size) eqn:Hchk.
  2: { rewrite (stretch_refused _ _ _ _ Hchk) in Hok. discriminate Hok. }
  destruct (check_overlap_true_inv u _ _ Hinv Hs Hz Ha Hn Hchk)
    as [V1 [V2 [Fu [Fa [T1 T2]]]]].
  assert (H0 : 0 <= start u /\ 0 <= size u) by (unfold range_inv in Hinv; lia).
  rewrite (stretch_exact u) by lia. cbn [snd].
  rewrite stretch_exact; cbn [start size]; try lia.
  do 2 f_equal; lia.
Qed.

Lemma stretch_idempotent_witness :
  stretch (stretch (untreatedpart_new 0 10 1) 10 5 2).2 10 5 2
  = stretch (untreatedpart_new 0 10 1) 10 5 2.
Proof.
  apply (stretch_idempotent (untreatedpart_new 0 10 1) 10 5 2);
    first [ by_evaluation | left; split; by_evaluation ].
Defined.

(** X7.  Merging is symmetric in its two intervals.  For two proper
    ranges, stretching the first by the second and the second by the
    first give the same answer, and when they succeed the same range,
    whether or not an end offset overflows. *)
Theorem stretch_commutes s z t1 a n t2 tag :
  0 <= s -> 0 < z -> 0 <= a -> 0 < n ->
  (stretch (untreatedpart_new s z t1) a n tag).1
  = (stretch (untreatedpart_new a n t2) s z tag).1
  /\ ((stretch (untreatedpart_new s z t1) a n tag).1 = true ->
      (stretch (untreatedpart_new s z t1) a n tag).2
      = (stretch (untreatedpart_new a n t2) s z tag).2).
Proof.
  intros Hs Hz Ha Hn.
  assert (E1 : untreatedpart_new s z t1 = mk_untreatedpart s z t1).
  { unfold untreatedpart_new.
    replace (s <? 0) with false by (symmetry; apply Z.ltb_ge; lia).
    replace (z <=? 0) with false by (symmetry; apply Z.leb_gt; lia).
    reflexivity. }
  assert (E2 : untreatedpart_new a n t2 = mk_untreatedpart a n t2).
  { unfold untreatedpart_new.
    replace (a <? 0) with false by (symmetry; apply Z.ltb_ge; lia).
    replace (n <=? 0) with false by (symmetry; apply Z.leb_gt; lia).
    reflexivity. }
  rewrite E1, E2.
  assert (C : check_overlap (mk_untreatedpart s z t1) a n
              = check_overlap (mk_untreatedpart a n t2) s z).
  { rewrite !check_overlap_expr by lia. cbn [start size].
    rewrite orb_comm. reflexivity. }
  destruct (check_overlap (mk_untreatedpart a n t2) s z) eqn:K.
  - rewrite (stretch_accepted _ _ _ _ C), (stretch_accepted _ _ _ _ K).
    cbn [fst snd start size]. split; [reflexivity |]. intros _.
    rewrite (Z.min_comm a s), (Z.max_comm (off_add a n)). reflexivity.
  - rewrite (stretch_refused _ _ _ _ C), (stretch_refused _ _ _ _ K).
    cbn [fst]. split; [reflexivity | discriminate].
Qed.

Lemma stretch_commutes_witness :
  (stretch (untreatedpart_new 0 10 1) 10 5 3).1
  = (stretch (untreatedpart_new 10 5 2) 0 10 3).1
  /\ (stretch (untreatedpart_new 0 10 1) 10 5 3).2
     = (stretch (untreatedpart_new 10 5 2) 0 10 3).2.
Proof.
  destruct (stretch_commutes 0 10 1 10 5 2 3) as [F S]; try lia.
  split; [exact F | apply S; reflexivity].
Defined.

(** X8.  Two arguments that both touch a proper range can be merged into
    it in either order: both calls succeed both ways, and the range at the
    end runs from the smallest of the three starts to the largest of the
    three ends either way (the end offsets being representable). *)
Theorem stretch_order_independent u a1 n1 t1 a2 n2 t2 :
  0 <= start u -> 0 < size u -> end_fits (start u) (size u) ->
  0 <= a1 -> 0 < n1 -> end_fits a1 n1 ->
  0 <= a2 -> 0 < n2 -> end_fits a2 n2 ->
  overlap_or_touch (start u) (size u) a1 n1 ->
  overlap_or_touch (start u) (size u) a2 n2 ->
  let lo := Z.min (start u) (Z.min a1 a2) in
  let hi := Z.max (start u + size u) (Z.max (a1 + n1) (a2 + n2)) in
  stretch u a1 n1 t1 = (true, (stretch u a1 n1 t1).2)
  /\ stretch u a2 n2 t2 = (true, (stretch u a2 n2 t2).2)
  /\ stretch (stretch u a1 n1 t1).2 a2 n2 t2
     = (true, mk_untreatedpart lo (hi - lo) t2)
  /\ stretch (stretch u a2 n2 t2).2 a1 n1 t1
     = (true, mk_untreatedpart lo (hi - lo) t1).
Proof.
  intros Hs Hz Fu Ha1 Hn1 F1 Ha2 Hn2 F2 O1 O2. cbv zeta.
  apply overlap_or_touch_iff in O1; [| assumption | assumption].
  apply overlap_or_touch_iff in O2; [| assumption | assumption].
  unfold end_fits in *.
  rewrite (stretch_exact u a1 n1) by lia.
  rewrite (stretch_exact u a2 n2) by lia. cbn [snd].
  split; [reflexivity |]. split; [reflexivity |]. split.
  - rewrite stretch_exact; cbn [start size]; try lia. do 2 f_equal; lia.
  - rewrite stretch_exact; cbn [start size]; try lia. do 2 f_equal; lia.
Qed.

Lemma stretch_order_independent_witness :
  stretch (untreatedpart_new 10 10 0) 0 10 1
  = (true, (stretch (untreatedpart_new 10 10 0) 0 10 1).2)
  /\ stretch (untreatedpart_new 10 10 0) 20 10 2
     = (true, (stretch (untreatedpart_new 10 10 0) 20 10 2).2)
  /\ stretch (stretch (untreatedpart_new 10 10 0) 0 10 1).2 20 10 2
     = (true, mk_untreatedpart 0 30 2)
  /\ stretch (stretch (untreatedpart_new 10 10 0) 20 10 2).2 0 10 1
     = (true, mk_untreatedpart 0 30 1).
Proof.
  apply (stretch_order_independent (untreatedpart_new 10 10 0) 0 10 1 20 10 2);
    first [ by_evaluation
          | unfold end_fits; by_evaluation
          | right; left; reflexivity
          | right; right; reflexivity ].
Defined.

(** X9.  A successful merge into a proper range neither loses nor invents
    bytes: the new size is at least each of the two sizes and at most
    their sum, and it is their sum exactly when the two intervals have no
    byte in common. *)
Theorem stretch_size_bounds u add_start add_size tag :
  0 <= start u -> 0 < size u ->
  start u <= OFF_MAX -> size u <= OFF_MAX ->
  add_start <= OFF_MAX -> add_size <= OFF_MAX ->
  (stretch u add_start add_size tag).1 = true ->
  let n' := size (stretch u add_start add_size tag).2 in
  size u <= n' /\ add_size <= n' /\ n' <= size u + add_size
  /\ (n' = size u + add_size
      <-> ~ shares_byte (start u) (size u) add_start add_size).
Proof.
  intros Hs Hz Bs Bz Ba Bn Hok. cbv zeta.
  destruct (check_overlap u add_start add_size) eqn:Hchk.
  2: { rewrite (stretch_refused _ _ _ _ Hchk) in Hok. discriminate Hok. }
  destruct (check_overlap_true_inv u add_start add_size) as
    [V1 [V2 [Fu [Fa [T1 T2]]]]]; try assumption.
  { left. lia. }
  rewrite stretch_exact by lia. cbn [snd size].
  split; [lia |]. split; [lia |]. split; [lia |]. unfold shares_byte. split.
  - intros E [x [X1 X2]]. lia.
  - intros Hno.
    destruct (Z_lt_ge_dec (Z.max (start u) add_start)
                (Z.min (start u + size u) (add_start + add_size))) as [L | G];
      [| lia].
    exfalso. apply Hno. exists (Z.max (start u) add_start). lia.
Qed.

Lemma stretch_size_bounds_witness :
  size (untreatedpart_new 0 10 1) <= size (stretch (untreatedpart_new 0 10 1) 5 10 2).2
  /\ 10 <= size (stretch (untreatedpart_new 0 10 1) 5 10 2).2
  /\ size (stretch (untreatedpart_new 0 10 1) 5 10 2).2
     <= size (untreatedpart_new 0 10 1) + 10
  /\ (size (stretch (untreatedpart_new 0 10 1) 5 10 2).2
      = size (untreatedpart_new 0 10 1) + 10
      <-> ~ shares_byte (start (untreatedpart_new 0 10 1))
                        (size (untreatedpart_new 0 10 1)) 5 10).
Proof.
  apply (stretch_size_bounds (untreatedpart_new 0 10 1) 5 10 2); by_evaluation.
Defined.

(** X15.  No spurious merge.  For a proper range and a valid argument
    with representable end offsets, [stretch] returns false exactly when
    a gap of at least one byte lies between the two intervals; whenever it
    returns false, the range is as it was. *)
Theorem stretch_refuses_gap u add_start add_size tag :
  0 <= start u -> 0 < size u -> end_fits (start u) (size u) ->
  0 <= add_start -> 0 < add_size -> end_fits add_start add_size ->
  ((stretch u add_start add_size tag).1 = false
   <-> (add_start + add_size < start u \/ start u + size u < add_start))
  /\ ((stretch u add_start add_size tag).1 = false ->
      (stretch u add_start add_size tag).2 = u).
Proof.
  intros Hs Hz Fu Ha Hn Fa. unfold end_fits in *.
  pose proof (check_overlap_exact u add_start add_size Ha Hn) as X.
  destruct (check_overlap u add_start add_size) eqn:Hchk.
  - rewrite (stretch_accepted _ _ _ _ Hchk). cbn [fst snd].
    assert (T : start u <= add_start + add_size /\ add_start <= start u + size u).
    { apply X; [unfold_off; lia | unfold_off; lia | reflexivity]. }
    split; [split; [discriminate | lia] | discriminate].
  - rewrite (stretch_refused _ _ _ _ Hchk). cbn [fst snd].
    split; [| reflexivity]. split; [| reflexivity]. intros _.
    destruct (Z_lt_ge_dec (add_start + add_size) (start u)) as [L | G];
      [left; exact L |].
    destruct (Z_lt_ge_dec (start u + size u) add_start) as [L' | G'];
      [right; exact L' |].
    assert (K : false = true); [| discriminate K].
    apply X; [unfold_off; lia | unfold_off; lia | lia].
Qed.

Lemma stretch_refuses_gap_witness :
  (stretch (untreatedpart_new 0 5 1) 100 5 2).1 = false
  /\ (stretch (untreatedpart_new 0 5 1) 100 5 2).2 = untreatedpart_new 0 5 1.
Proof.
  destruct (stretch_refuses_gap (untreatedpart_new 0 5 1) 100 5 2) as [G K];
    try first [ by_evaluation | unfold end_fits; by_evaluation ].
  assert (F : (stretch (untreatedpart_new 0 5 1) 100 5 2).1 = false).
  { apply G. right. by_evaluation. }
  split; [exact F | exact (K F)].
Defined.

End UntreatedMore.

(** ** acl_t: the other direction of the conversion *)

Module AclMore.
Import Acl AclSpec.

Lemma c_str_idempotent s : c_str (c_str s) = c_str s.
Proof.
  induction s as [| c r IH]; [reflexivity |]. cbn [c_str].
  destruct (Ascii.eqb_spec c Ascii.zero) as [E | N]; [reflexivity |].
  cbn [c_str]. apply Ascii.eqb_neq in N. rewrite N, IH. reflexivity.
Qed.

(** The comparison looks at the C string only. *)
Lemma strcmp_test_c_str acl name :
  (0 =? strcmp (c_str acl) name) = (0 =? strcmp acl name).
Proof.
  apply Bool.eq_true_iff_eq. rewrite !strcmp_test, c_str_idempotent.
  reflexivity.
Qed.

(** The value [from_str] returns, by the C string of its argument. *)
Lemma from_str_cases acl :
  (c_str acl = "private"%string /\ from_str acl = acl_t_new PRIVATE)
  \/ (c_str acl = "public-read"%string /\ from_str acl = acl_t_new PUBLIC_READ)
  \/ (c_str acl = "public-read-write"%string
      /\ from_str acl = acl_t_new PUBLIC_READ_WRITE)
  \/ (c_str acl = "default"%string /\ from_str acl = acl_t_new DEFAULT)
  \/ (~ In (c_str acl) canonical /\ from_str acl = acl_t_new UNKNOWN).
Proof.
  unfold from_str.
  destruct (0 =? strcmp acl "private") eqn:E1.
  { left. split; [apply strcmp_test in E1; exact E1 | reflexivity]. }
  destruct (0 =? strcmp acl "public-read") eqn:E2.
  { right. left. split; [apply strcmp_test in E2; exact E2 | reflexivity]. }
  destruct (0 =? strcmp acl "public-read-write") eqn:E3.
  { do 2 right. left. split; [apply strcmp_test in E3; exact E3 | reflexivity]. }
  destruct (0 =? strcmp acl "default") eqn:E4.
  { do 3 right. left. split; [apply strcmp_test in E4; exact E4 | reflexivity]. }
  do 4 right. split; [| reflexivity].
  cbn [canonical In]. intros [H | [H | [H | [H | []]]]]; symmetry in H;
    [ change (c_str acl = c_str "private") in H
    | change (c_str acl = c_str "public-read") in H
    | change (c_str acl = c_str "public-read-write") in H
    | change (c_str acl = c_str "default") in H ];
    apply strcmp_test in H; congruence.
Qed.



(** X11.  [from_str] returns one of the five values of the enumeration on
    every argument, so [str] of its result returns and never reaches
    [abort()]; the result is [UNKNOWN], and [str] of it the null pointer,
    exactly when the C string of the argument is none of the four names.
    What follows the first NUL of the argument has no effect. *)
Theorem from_str_yields_enumerator (acl : string) :
  exists v : Value,
    from_str acl = acl_t_new v
    /\ str (from_str acl) = Returns (name_of v)
    /\ (v = UNKNOWN <-> ~ In (c_str acl) canonical)
    /\ (str (from_str acl) = Returns None <-> ~ In (c_str acl) canonical)
    /\ from_str (c_str acl) = from_str acl.
Proof.
  assert (Hc : from_str (c_str acl) = from_str acl).
  { unfold from_str. rewrite !strcmp_test_c_str. reflexivity. }
  assert (Hin : forall v, v <> UNKNOWN -> name_of v = Some (c_str acl) ->
                from_str acl = acl_t_new v ->
                from_str acl = acl_t_new v
                /\ str (from_str acl) = Returns (name_of v)
                /\ (v = UNKNOWN <-> ~ In (c_str acl) canonical)
                /\ (str (from_str acl) = Returns None <-> ~ In (c_str acl) canonical)
                /\ from_str (c_str acl) = from_str acl).
  { intros v Hv Hname F.
    assert (I : In (c_str acl) canonical).
    { destruct v; cbn [name_of] in Hname; try discriminate Hname;
        injection Hname as <-; cbn; tauto. }
    assert (S : str (from_str acl) = Returns (name_of v)).
    { rewrite F. destruct v; reflexivity. }
    split; [exact F |]. split; [exact S |]. split; [| split; [| exact Hc]].
    - split; [intros K; destruct (Hv K) | intros K; destruct (K I)].
    - rewrite S, Hname. split; [discriminate | intros K; destruct (K I)]. }
  destruct (from_str_cases acl) as [[E F] | [[E F] | [[E F] | [[E F] | [E F]]]]].
  - exists PRIVATE. apply Hin; [discriminate | rewrite E; reflexivity | exact F].
  - exists PUBLIC_READ. apply Hin; [discriminate | rewrite E; reflexivity | exact F].
  - exists PUBLIC_READ_WRITE.
    apply Hin; [discriminate | rewrite E; reflexivity | exact F].
  - exists DEFAULT. apply Hin; [discriminate | rewrite E; reflexivity | exact F].
  - exists UNKNOWN. rewrite F.
    split; [reflexivity |]. split; [reflexivity |].
    split; [split; [intros _; exact E | reflexivity] |].
    split; [split; [intros _; exact E | reflexivity] |].
    rewrite <- F. exact Hc.
Qed.

End AclMore.

(** ** The ETag list: numbers and pointers of a whole run *)

Module PartMore.
Import Machine MachineFacts EtagPair FilePart PartSpec.

(** After a run, each part reads the number stored at its own call. *)
Lemma add_etag_list_seq_reads calls :
  forall (mem : gmap addr etagpair) (l : etaglist_t),
    (fun part => get_part_number part (add_etag_list_seq calls mem l).1.1)
      <$> (add_etag_list_seq calls mem l).2
    = numbers_given calls (length l).
Proof.
  induction calls as [| [part partnum] rest IH]; intros mem l; [reflexivity |].
  cbn [add_etag_list_seq numbers_given]. rewrite add_etag_list_eq.
  set (back := fresh (dom mem)). set (e := etagpair_new None _).
  assert (H1 : <[back := e]> mem !! back = Some e) by apply lookup_insert_eq.
  pose proof (add_etag_list_seq_keeps rest _ (l ++ [back]) _ _ H1) as H2.
  pose proof (IH (<[back := e]> mem) (l ++ [back])) as R.
  destruct (add_etag_list_seq rest (<[back := e]> mem) (l ++ [back]))
    as [[mem2 l2] parts].
  cbn [fst snd] in *. rewrite fmap_cons, R. f_equal.
  - unfold get_part_number. cbn [petag set_etag]. rewrite H2. reflexivity.
  - rewrite length_app, Nat.add_1_r. reflexivity.
Qed.

(** The addresses a run appends are new and pairwise different. *)
Lemma add_etag_list_seq_fresh calls :
  forall (mem : gmap addr etagpair) (l : etaglist_t),
    exists ext,
      (add_etag_list_seq calls mem l).1.2 = l ++ ext
      /\ petag <$> (add_etag_list_seq calls mem l).2 = Some <$> ext
      /\ NoDup ext
      /\ Forall (fun p => mem !! p = None) ext
      /\ length ext = length calls.
Proof.
  induction calls as [| [part partnum] rest IH]; intros mem l.
  - exists []. cbn. rewrite app_nil_r.
    repeat split; try reflexivity; constructor.
  - cbn [add_etag_list_seq]. rewrite add_etag_list_eq.
    set (back := fresh (dom mem)). set (e := etagpair_new None _).
    destruct (IH (<[back := e]> mem) (l ++ [back]))
      as [ext [E1 [E2 [ND [FR LN]]]]].
    destruct (add_etag_list_seq rest (<[back := e]> mem) (l ++ [back]))
      as [[mem2 l2] parts].
    cbn [fst snd] in *. exists (back :: ext).
    split; [rewrite E1, <- app_assoc; reflexivity |].
    split; [rewrite !fmap_cons, E2; reflexivity |].
    split; [| split].
    + constructor; [| exact ND]. intros Hin.
      rewrite Forall_forall in FR. specialize (FR _ Hin).
      rewrite lookup_insert_eq in FR. discriminate FR.
    + constructor; [apply fresh_unused |].
      eapply Forall_impl; [exact FR |]. intros p Hp.
      apply lookup_insert_None in Hp. tauto.
    + cbn [length]. rewrite LN. reflexivity.
Qed.

(** A run keeps every element of the list in the store. *)
Lemma add_etag_list_seq_in_store calls :
  forall (mem : gmap addr etagpair) (l : etaglist_t),
    list_in_store mem l ->
    list_in_store (add_etag_list_seq calls mem l).1.1
                  (add_etag_list_seq calls mem l).1.2.
Proof.
  induction calls as [| [part partnum] rest IH]; intros mem l Hin; [exact Hin |].
  cbn [add_etag_list_seq]. rewrite add_etag_list_eq.
  set (back := fresh (dom mem)). set (e := etagpair_new None _).
  assert (Hin1 : list_in_store (<[back := e]> mem) (l ++ [back])).
  { apply Forall_app. split.
    - eapply Forall_impl; [exact Hin |]. intros q [x Hq]. exists x.
      rewrite lookup_insert_ne; [exact Hq |].
      intros E. subst q. unfold back in Hq. rewrite fresh_unused in Hq.
      discriminate Hq.
    - constructor; [| constructor]. exists e. apply lookup_insert_eq. }
  specialize (IH _ _ Hin1).
  destruct (add_etag_list_seq rest (<[back := e]> mem) (l ++ [back]))
    as [[mem2 l2] parts].
  exact IH.
Qed.

(** The numbers of a run of calls that all leave the part number out. *)
Lemma numbers_given_default calls :
  forall n : nat,
    Forall (fun c : filepart * Z => c.2 = -1) calls ->
    Z.of_nat (n + length calls) <= INT_MAX ->
    numbers_given calls n
    = (fun i : nat => Some (Z.of_nat i)) <$> seq (S n) (length calls).
Proof.
  induction calls as [| [part partnum] rest IH]; intros n Hd Hlen;
    [reflexivity |].
  apply Forall_cons in Hd. destruct Hd as [Hp Hrest]. cbn [snd] in Hp. subst partnum.
  cbn [numbers_given length seq fmap list_fmap] in *.
  change (-1 =? -1) with true. cbn iota.
  rewrite int_of_size_t_exact by lia.
  rewrite int_add_exact by (unfold in_int, INT_MIN, INT_MAX in *; lia).
  f_equal; [f_equal; lia |].
  apply IH; [exact Hrest |]. lia.
Qed.

(** X12.  After any run of [add_etag_list] calls on one list, every part
    of the run reads, through its own pointer, the part number stored at
    its own call.  The pointers of the parts are the addresses appended to
    the list, in call order; they are pairwise different and different
    from every address in use before the run; and if all elements of the
    list were in the store before the run, they all are after it. *)
Theorem parts_own_their_entries (calls : list (filepart * Z))
    (mem : gmap addr etagpair) (l : etaglist_t) :
  let r := add_etag_list_seq calls mem l in
  (fun part => get_part_number part r.1.1) <$> r.2
  = numbers_given calls (length l)
  /\ (exists ext,
        r.1.2 = l ++ ext
        /\ petag <$> r.2 = Some <$> ext
        /\ NoDup ext
        /\ Forall (fun p => mem !! p = None) ext
        /\ length ext = length calls)
  /\ (list_in_store mem l -> list_in_store r.1.1 r.1.2).
Proof.
  cbv zeta. split; [apply add_etag_list_seq_reads |].
  split; [apply add_etag_list_seq_fresh | apply add_etag_list_seq_in_store].
Qed.

Lemma parts_own_their_entries_witness :
  list_in_store
    (add_etag_list_seq [(default_part, 7); (default_part, -1)] ∅ []).1.1
    (add_etag_list_seq [(default_part, 7); (default_part, -1)] ∅ []).1.2.
Proof.
  apply (parts_own_their_entries [(default_part, 7); (default_part, -1)] ∅ []).
  constructor.
Defined.

(** X13.  Calls that all leave the part number out count up from the
    size of the list: on a list of [n] elements, all in the store, [k]
    such calls with [n + k <= INT_MAX] append the numbers
    [n+1, ..., n+k] in call order, the numbers already in the list stay,
    and the parts read [n+1, ..., n+k].  From the empty list the numbers
    are [1, ..., k]. *)
Theorem default_numbering_counts_up (calls : list (filepart * Z))
    (mem : gmap addr etagpair) (l : etaglist_t) :
  Forall (fun c : filepart * Z => c.2 = -1) calls ->
  list_in_store mem l ->
  Z.of_nat (length l + length calls) <= INT_MAX ->
  let r := add_etag_list_seq calls mem l in
  let new := (fun i : nat => Some (Z.of_nat i)) <$> seq (S (length l)) (length calls) in
  part_numbers r.1.1 r.1.2 = part_numbers mem l ++ new
  /\ (fun part => get_part_number part r.1.1) <$> r.2 = new.
Proof.
  intros Hd Hin Hlen. cbv zeta.
  rewrite add_etag_list_seq_numbers by exact Hin.
  rewrite add_etag_list_seq_reads.
  rewrite numbers_given_default by assumption. split; reflexivity.
Qed.

Lemma default_numbering_counts_up_witness :
  part_numbers
    (add_etag_list_seq (replicate 4 (default_part, -1)) ∅ []).1.1
    (add_etag_list_seq (replicate 4 (default_part, -1)) ∅ []).1.2
  = part_numbers ∅ [] ++ [Some 1; Some 2; Some 3; Some 4]
  /\ (fun part =>
        get_part_number part
          (add_etag_list_seq (replicate 4 (default_part, -1)) ∅ []).1.1)
       <$> (add_etag_list_seq (replicate 4 (default_part, -1)) ∅ []).2
     = [Some 1; Some 2; Some 3; Some 4].
Proof.
  apply (default_numbering_counts_up (replicate 4 (default_part, -1)) ∅ []).
  - repeat constructor.
  - constructor.
  - by_evaluation.
Defined.

(** X14.  The number a call gives by default is the size of the list plus
    one, whatever numbers the list holds.  After a call with the explicit
    number [size + 2], the next call with the number left out stores
    [size + 2] again: the two parts read the same part number. *)
Theorem explicit_then_default_repeats (a b : filepart)
    (mem : gmap addr etagpair) (l : etaglist_t) :
  Z.of_nat (length l) + 2 <= INT_MAX ->
  let r := add_etag_list_seq [(a, Z.of_nat (length l) + 2); (b, -1)] mem l in
  (fun part => get_part_number part r.1.1) <$> r.2
  = [Some (Z.of_nat (length l) + 2); Some (Z.of_nat (length l) + 2)].
Proof.
  intros Hlen. cbv zeta. rewrite add_etag_list_seq_reads.
  cbn [numbers_given].
  replace (-1 =? Z.of_nat (length l) + 2) with false
    by (symmetry; apply Z.eqb_neq; lia).
  change (-1 =? -1) with true. cbn iota.
  rewrite int_of_size_t_exact by lia.
  rewrite int_add_exact by (unfold in_int, INT_MIN, INT_MAX in *; lia).
  do 3 f_equal. lia.
Qed.

Lemma explicit_then_default_repeats_witness :
  (fun part =>
     get_part_number part
       (add_etag_list_seq [(default_part, Z.of_nat (length (@nil addr)) + 2);
                           (default_part, -1)] ∅ []).1.1)
    <$> (add_etag_list_seq [(default_part, Z.of_nat (length (@nil addr)) + 2);
                            (default_part, -1)] ∅ []).2
  = [Some (Z.of_nat (length (@nil addr)) + 2);
     Some (Z.of_nat (length (@nil addr)) + 2)].
Proof.
  apply (explicit_then_default_repeats default_part default_part ∅ []).
  by_evaluation.
Defined.

End PartMore.
